(** * A shallow embedding of the osmem allocator (src/osmem.c)

    The allocator keeps an in-band header ([struct block_meta]) in front of
    every region it hands out, links the headers of the arena into a list
    through their [next] fields, and talks to the operating system through
    [sbrk], [mmap] and [munmap].

    The embedding follows the C text function by function:
    - a header is a record, and the headers that exist in memory form a
      finite map from their address to the record (pointers are addresses
      in [Z], [NULL] is [0], [(void * )-1] is [-1]);
    - payload bytes are a function from addresses to bytes, kept apart
      from the headers, while the C program keeps both in the same bytes.
      The embedding is exact as long as the headers in use lie at least
      a header size apart, no header is written inside the payload of a
      block in use, and no payload write ([memcpy], [memset]) lands on a
      header in use: the layout [tiled] below. Where the C program leaves
      this layout (it does, see the theorems on [last]), the statements
      say so and stop at the last step that is exact;
    - the three globals and the state of the operating system (program
      break, its limit, the addresses future mappings get, the page size)
      are fields of the program state;
    - every C function is a computation in a state-and-error monad whose
      outcomes are: a normal return, the process terminated by [DIE], an
      invalid memory access, or a loop budget that ran out;
    - [size_t] arithmetic wraps around modulo [2^64]. *)

From Stdlib Require Import ZArith Lia String List.
From stdpp Require Import base option fin_maps gmap.

Local Open Scope Z_scope.

(** ** Machine integers *)

(** [size_t] is a 64-bit unsigned integer. *)
Definition SIZE_T_BITS : Z := 64.

Definition wrap (z : Z) : Z := z mod 2 ^ SIZE_T_BITS.

(** Conversion of a [size_t] to [intptr_t], the argument type of [sbrk]. *)
Definition to_intptr (z : Z) : Z :=
  let w := wrap z in if w <? 2 ^ 63 then w else w - 2 ^ 64.

(** Conversion of a [size_t] to [int], as in [int missing_size = ...]. *)
Definition to_int (z : Z) : Z :=
  let w := z mod 2 ^ 32 in if w <? 2 ^ 31 then w else w - 2 ^ 32.

(** ** Constants and macros of osmem.c *)

Definition NULL : Z := 0.
Definition MAP_FAILED : Z := -1.

Definition ALIGNMENT : Z := 8.

(** [#define ALIGN(size) (((size) + (ALIGNMENT - 1)) & ~(ALIGNMENT - 1))];
    the mask [~7] is an [int] that is sign-extended to [size_t], so that
    the conjunction clears the three low bits. *)
Definition ALIGN (sz : Z) : Z :=
  Z.land (wrap (sz + (ALIGNMENT - 1))) (Z.lnot (ALIGNMENT - 1)).

Definition MMAP_THRESHOLD : Z := 128 * 1024.
Definition SIZE_MAX : Z := 4294967295.

(** ** Block metadata *)

(** Modelled from the spec: block_meta.h is not part of src/. The spec's
    data model gives the status of a block as one of FREE, ALLOCATED and
    MAPPED. *)
Inductive block_status : Type :=
| STATUS_FREE
| STATUS_ALLOC
| STATUS_MAPPED.

Definition status_eqb (a b : block_status) : bool :=
  match a, b with
  | STATUS_FREE, STATUS_FREE => true
  | STATUS_ALLOC, STATUS_ALLOC => true
  | STATUS_MAPPED, STATUS_MAPPED => true
  | _, _ => false
  end.

(** Modelled from the spec: [struct block_meta] of block_meta.h, with the
    fields of the spec's data model: size, status and the two links. *)
Record block_meta : Type := mk_block_meta {
  size : Z;
  status : block_status;
  prev : Z;
  next : Z
}.

(** Modelled from the spec: [sizeof(struct block_meta)] of the absent
    header, a [size_t], an [int] (padded) and two pointers on LP64. *)
Definition META_SIZE : Z := 32.

(** The content of memory that was never written (fresh pages are
    zero-filled). *)
Definition zero_meta : block_meta :=
  {| size := 0; status := STATUS_FREE; prev := NULL; next := NULL |}.

(** ** Program state *)

Record state : Type := mk_state {
  heap : gmap Z block_meta;      (* the headers, by address *)
  mem : Z -> Byte.byte;          (* payload bytes *)
  global_base : Z;               (* struct block_meta *global_base *)
  last : Z;                      (* struct block_meta *last *)
  prealloc : bool;               (* int prealloc *)
  brk : Z;                       (* the program break *)
  brk_limit : Z;                 (* how far the break may move *)
  mmap_pool : list Z;            (* what the next calls of mmap return *)
  page_size : Z                  (* sysconf(_SC_PAGESIZE) *)
}.

Definition set_heap (h : gmap Z block_meta) (s : state) : state :=
  mk_state h (mem s) (global_base s) (last s) (prealloc s)
           (brk s) (brk_limit s) (mmap_pool s) (page_size s).

Definition set_mem (m : Z -> Byte.byte) (s : state) : state :=
  mk_state (heap s) m (global_base s) (last s) (prealloc s)
           (brk s) (brk_limit s) (mmap_pool s) (page_size s).

Definition set_global_base (g : Z) (s : state) : state :=
  mk_state (heap s) (mem s) g (last s) (prealloc s)
           (brk s) (brk_limit s) (mmap_pool s) (page_size s).

Definition set_last (l : Z) (s : state) : state :=
  mk_state (heap s) (mem s) (global_base s) l (prealloc s)
           (brk s) (brk_limit s) (mmap_pool s) (page_size s).

Definition set_prealloc (p : bool) (s : state) : state :=
  mk_state (heap s) (mem s) (global_base s) (last s) p
           (brk s) (brk_limit s) (mmap_pool s) (page_size s).

Definition set_brk (b : Z) (s : state) : state :=
  mk_state (heap s) (mem s) (global_base s) (last s) (prealloc s)
           b (brk_limit s) (mmap_pool s) (page_size s).

Definition set_mmap_pool (p : list Z) (s : state) : state :=
  mk_state (heap s) (mem s) (global_base s) (last s) (prealloc s)
           (brk s) (brk_limit s) p (page_size s).

(** ** The monad of C computations *)

Inductive result (A : Type) : Type :=
| Ret (v : A) (s : state)     (* normal return *)
| Die (msg : string)          (* DIE fired: the process is terminated *)
| Fault                       (* access to memory that holds no header *)
| OutOfFuel.                  (* the loop budget is exhausted *)

Arguments Ret {A} v s.
Arguments Die {A} msg.
Arguments Fault {A}.
Arguments OutOfFuel {A}.

Definition M (A : Type) : Type := state -> result A.

Definition ret {A : Type} (v : A) : M A := fun s => Ret v s.

Definition bind {A B : Type} (c : M A) (k : A -> M B) : M B :=
  fun s =>
    match c s with
    | Ret v s' => k v s'
    | Die msg => Die msg
    | Fault => Fault
    | OutOfFuel => OutOfFuel
    end.

Notation "'let*' x ':=' c 'in' k" := (bind c (fun x => k))
  (at level 10, x name, c at level 100, k at level 200).

Notation "c ';;;' k" := (bind c (fun _ => k))
  (at level 100, k at level 200, right associativity).

Definition get {A : Type} (f : state -> A) : M A := fun s => Ret (f s) s.
Definition modify (f : state -> state) : M unit := fun s => Ret tt (f s).
Definition out_of_fuel {A : Type} : M A := fun _ => OutOfFuel.

(** Modelled from the spec: the [DIE] macro of the absent utility header,
    the fatal-error facility that reports and terminates the process when
    its condition holds. *)
Definition DIE (assertion : bool) (msg : string) : M unit :=
  fun s => if assertion then Die msg else Ret tt s.

(** *** Access to the fields of a header *)

(** Reading [block->field] needs a header at [block]; reading through
    [NULL] is an invalid access. *)
Definition load {A : Type} (f : block_meta -> A) (block : Z) : M A :=
  fun s =>
    if block =? NULL then Fault
    else
      match heap s !! block with
      | Some b => Ret (f b) s
      | None => Fault
      end.

(** Writing [block->field]; memory that was not written before reads as
    zero. Writing through [NULL] is an invalid access. The write changes
    the header at [block] alone: this is what the C assignment does when
    no other header and no payload in use shares bytes with the
    [META_SIZE] bytes at [block]. *)
Definition store (f : block_meta -> block_meta) (block : Z) : M unit :=
  fun s =>
    if block =? NULL then Fault
    else Ret tt (set_heap (<[block := f (default zero_meta (heap s !! block))]> (heap s)) s).

Definition with_size (v : Z) (b : block_meta) : block_meta :=
  mk_block_meta v (status b) (prev b) (next b).
Definition with_status (v : block_status) (b : block_meta) : block_meta :=
  mk_block_meta (size b) v (prev b) (next b).
Definition with_prev (v : Z) (b : block_meta) : block_meta :=
  mk_block_meta (size b) (status b) v (next b).
Definition with_next (v : Z) (b : block_meta) : block_meta :=
  mk_block_meta (size b) (status b) (prev b) v.

Definition store_size (block v : Z) : M unit := store (with_size v) block.
Definition store_status (block : Z) (v : block_status) : M unit :=
  store (with_status v) block.
Definition store_prev (block v : Z) : M unit := store (with_prev v) block.
Definition store_next (block v : Z) : M unit := store (with_next v) block.

(** ** The operating system *)

(** [sbrk(increment)]: returns the old break and moves it, or returns
    [(void * )-1] when the break would pass the limit. [sbrk(0)] only reads
    the break. *)
Definition sbrk (increment : Z) : M Z :=
  fun s =>
    if increment =? 0 then Ret (brk s) s
    else if brk s + increment <=? brk_limit s
         then Ret (brk s) (set_brk (brk s + increment) s)
         else Ret MAP_FAILED s.

(** [memset(dst, c, n)] and [memcpy(dst, src, n)] on the payload bytes.
    Both are total and change payload bytes alone: this is what the C
    functions do when the ranges lie in memory of the process, hold no
    header in use and, for [memcpy], do not overlap. [memcpy] reads every
    byte before any is written. *)
Definition memset (dst : Z) (c : Byte.byte) (n : Z) : M unit :=
  modify (fun s =>
    set_mem (fun a => if (dst <=? a) && (a <? dst + n) then c else mem s a) s).

Definition memcpy (dst src n : Z) : M unit :=
  modify (fun s =>
    set_mem (fun a => if (dst <=? a) && (a <? dst + n)
                      then mem s (src + (a - dst)) else mem s a) s).

(** [mmap(NULL, length, ..., MAP_PRIVATE | MAP_ANONYMOUS, -1, 0)]: the
    next address of the pool, zero-filled, or [MAP_FAILED]. *)
Definition mmap (length : Z) : M Z :=
  fun s =>
    match mmap_pool s with
    | [] => Ret MAP_FAILED s
    | a :: pool =>
        if a =? MAP_FAILED then Ret MAP_FAILED (set_mmap_pool pool s)
        else
          Ret a (set_mem (fun x => if (a <=? x) && (x <? a + length)
                                   then Byte.x00 else mem s x)
                         (set_mmap_pool pool s))
    end.

(** [munmap(addr, length)]: the header at [addr] is no longer memory. *)
Definition munmap (addr length : Z) : M Z :=
  fun s =>
    if length <=? 0 then Ret (-1) s
    else Ret 0 (set_heap (delete addr (heap s)) s).

(** ** osmem.c *)

(** [struct block_meta *brk_block(size_t size)] *)
Definition brk_block (sz : Z) : M Z :=
  if sz <=? 0 then ret NULL
  else
    let* block := sbrk 0 in
    let* req := sbrk (to_intptr sz) in
    DIE (negb (req =? block)) "sbrk failed" ;;;
    if req =? MAP_FAILED then ret NULL
    else
      store_status block STATUS_ALLOC ;;;
      store_size block sz ;;;
      let* l := get last in
      (if l =? NULL then
         store_next block NULL ;;;
         store_prev block NULL ;;;
         modify (set_last block)
       else
         store_prev block l ;;;
         let* ln := load next l in
         store_next block ln ;;;
         store_next l block ;;;
         modify (set_last block)) ;;;
      ret block.

(** [void split_block(struct block_meta *block, size_t size)] *)
Definition split_block (block sz : Z) : M unit :=
  if block =? NULL then ret tt
  else
    let* bsize := load size block in
    let rem_size := wrap (bsize - sz) in
    if rem_size <? META_SIZE + ALIGNMENT then ret tt
    else
      let new_block := block + sz in
      store_size new_block rem_size ;;;
      store_status new_block STATUS_FREE ;;;
      store_prev new_block block ;;;
      let* bnext := load next block in
      store_next new_block bnext ;;;
      store_next block new_block ;;;
      store_size block sz ;;;
      let* nnext := load next new_block in
      (if nnext =? NULL then ret tt else store_prev nnext new_block) ;;;
      let* l := get last in
      if l =? block then modify (set_last new_block) else ret tt.

(** The [while] loop of [coalesce_blocks]. *)
Fixpoint coalesce_loop (fuel : nat) (block : Z) : M unit :=
  match fuel with
  | O => out_of_fuel
  | S fuel' =>
      let* n := load next block in
      if n =? NULL then ret tt
      else
        let* nstatus := load status n in
        if status_eqb nstatus STATUS_FREE then
          let* bsize := load size block in
          let* nsize := load size n in
          store_size block (wrap (bsize + nsize)) ;;;
          let* n1 := load next block in
          let* nn := load next n1 in
          store_next block nn ;;;
          let* n2 := load next block in
          (if n2 =? NULL then modify (set_last block)
           else store_prev n2 block) ;;;
          coalesce_loop fuel' block
        else ret tt
  end.

(** [void coalesce_blocks(struct block_meta *block)] *)
Definition coalesce_blocks (fuel : nat) (block : Z) : M unit :=
  if block =? NULL then ret tt
  else
    let* st := load status block in
    if negb (status_eqb st STATUS_FREE) then ret tt
    else coalesce_loop fuel block.

(** The [while] loop of [coalesce_everywhere]; [fuel] bounds this loop
    and [inner] the loop of each call of [coalesce_blocks]. *)
Fixpoint coalesce_everywhere_loop (fuel inner : nat) (current : Z) : M unit :=
  match fuel with
  | O => out_of_fuel
  | S fuel' =>
      if current =? NULL then ret tt
      else
        let* st := load status current in
        (if status_eqb st STATUS_FREE then coalesce_blocks inner current
         else ret tt) ;;;
        let* n := load next current in
        coalesce_everywhere_loop fuel' inner n
  end.

(** [void coalesce_everywhere(void)] *)
Definition coalesce_everywhere (fuel : nat) : M unit :=
  let* current := get global_base in
  coalesce_everywhere_loop fuel fuel current.

(** The [while] loop of [find_best_fit]; returns [best_fit] and
    [best_fit_size]. *)
Fixpoint find_best_fit_loop (fuel : nat) (sz current best_fit best_fit_size : Z)
  : M (Z * Z) :=
  match fuel with
  | O => out_of_fuel
  | S fuel' =>
      if current =? NULL then ret (best_fit, best_fit_size)
      else
        let* st := load status current in
        let* csize := load size current in
        let* n := load next current in
        if status_eqb st STATUS_FREE && (sz <=? csize) && (csize <? best_fit_size)
        then find_best_fit_loop fuel' sz n current csize
        else find_best_fit_loop fuel' sz n best_fit best_fit_size
  end.

(** [struct block_meta *find_best_fit(size_t size)] *)
Definition find_best_fit (fuel : nat) (sz : Z) : M Z :=
  let* current := get global_base in
  let* r := find_best_fit_loop fuel sz current NULL SIZE_MAX in
  let best_fit := fst r in
  let best_fit_size := snd r in
  let* l := get last in
  let* lstatus := load status l in
  let* lsize := load size l in
  if status_eqb lstatus STATUS_FREE && (lsize <? sz) && (sz <? best_fit_size)
  then
    let missing_size := wrap (sz - lsize) in
    let* req := sbrk (to_intptr missing_size) in
    if req =? MAP_FAILED then ret best_fit
    else
      store_size l sz ;;;
      ret l
  else ret best_fit.

(** [void *os_malloc(size_t size)] *)
Definition os_malloc (fuel : nat) (sz : Z) : M Z :=
  if sz <=? 0 then ret NULL
  else
    let blk_size := ALIGN (wrap (sz + META_SIZE)) in
    if MMAP_THRESHOLD <=? blk_size then
      let* block := mmap blk_size in
      DIE (block =? MAP_FAILED) "mmap failed" ;;;
      (if block =? NULL then ret tt
       else
         store_status block STATUS_MAPPED ;;;
         store_size block blk_size) ;;;
      ret (block + META_SIZE)
    else
      let* pre := get prealloc in
      if negb pre then
        let* block := brk_block MMAP_THRESHOLD in
        let* bsize := load size block in
        (if blk_size <? bsize then split_block block blk_size else ret tt) ;;;
        modify (set_prealloc true) ;;;
        modify (set_global_base block) ;;;
        modify (set_last block) ;;;
        ret (block + META_SIZE)
      else
        coalesce_everywhere fuel ;;;
        let* block := find_best_fit fuel blk_size in
        if negb (block =? NULL) then
          let* bsize := load size block in
          (if blk_size <? bsize then split_block block blk_size else ret tt) ;;;
          store_status block STATUS_ALLOC ;;;
          ret (block + META_SIZE)
        else
          let* block' := brk_block blk_size in
          ret (block' + META_SIZE).

(** [void os_free(void *ptr)] *)
Definition os_free (ptr : Z) : M unit :=
  if ptr =? NULL then ret tt
  else
    let block := ptr - META_SIZE in
    let* st := load status block in
    if status_eqb st STATUS_FREE then ret tt
    else if status_eqb st STATUS_MAPPED then
      let* bsize := load size block in
      let* res := munmap block bsize in
      DIE (res <? 0) "munmap failed"
    else store_status block STATUS_FREE.

(** [void *os_calloc(size_t nmemb, size_t size)] *)
Definition os_calloc (fuel : nat) (nmemb sz : Z) : M Z :=
  if (sz <=? 0) || (nmemb <=? 0) then ret NULL
  else
    let blk_size := ALIGN (wrap (wrap (sz * nmemb) + META_SIZE)) in
    let* page := get page_size in
    if page <=? blk_size then
      let* block := mmap blk_size in
      DIE (block =? MAP_FAILED) "mmap failed" ;;;
      (if block =? NULL then ret tt
       else
         store_status block STATUS_MAPPED ;;;
         store_size block blk_size) ;;;
      memset (block + META_SIZE) Byte.x00 (wrap (blk_size - META_SIZE)) ;;;
      ret (block + META_SIZE)
    else
      let* block := os_malloc fuel (wrap (blk_size - META_SIZE)) in
      if negb (block =? NULL) then
        memset block Byte.x00 (wrap (blk_size - META_SIZE)) ;;;
        ret block
      else ret (block + META_SIZE).

(** The part of [os_realloc] after the block that handles mapped and
    large requests (lines 292 to 327), which control also reaches by
    falling out of that block. *)
Definition os_realloc_tail (fuel : nat) (ptr sz block new_size : Z) : M Z :=
  let* bsize := load size block in
  if new_size <=? bsize then
    split_block block new_size ;;;
    ret ptr
  else
    let* l := get last in
    if block =? l then
      let* bsize1 := load size block in
      let missing_size := to_int (wrap (new_size - bsize1)) in
      let* new_ptr := sbrk missing_size in
      DIE (new_ptr =? NULL) "sbrk failed" ;;;
      store_size block new_size ;;;
      ret ptr
    else
      coalesce_blocks fuel block ;;;
      let* bsize2 := load size block in
      if new_size <=? bsize2 then
        split_block block new_size ;;;
        ret ptr
      else
        let* new_ptr := os_malloc fuel sz in
        DIE (new_ptr =? NULL) "os_malloc failed" ;;;
        let new_block := new_ptr - META_SIZE in
        let* nsize := load size new_block in
        memcpy new_ptr ptr (wrap (nsize - META_SIZE)) ;;;
        os_free ptr ;;;
        ret new_ptr.

(** [void *os_realloc(void *ptr, size_t size)] *)
Definition os_realloc (fuel : nat) (ptr sz : Z) : M Z :=
  if sz <=? 0 then
    os_free ptr ;;;
    ret NULL
  else if ptr =? NULL then os_malloc fuel sz
  else
    let block := ptr - META_SIZE in
    let new_size := ALIGN (wrap (sz + META_SIZE)) in
    if block =? NULL then ret NULL
    else
      let* st := load status block in
      if status_eqb st STATUS_FREE then ret NULL
      else
        (if status_eqb st STATUS_MAPPED || (MMAP_THRESHOLD <=? new_size) then
           let* new_ptr := os_malloc fuel sz in
           DIE (new_ptr =? NULL) "os_malloc failed" ;;;
           let* bsize := load size block in
           memcpy new_ptr ptr (wrap (bsize - META_SIZE)) ;;;
           os_free ptr
         else ret tt) ;;;
        os_realloc_tail fuel ptr sz block new_size.

(** The state of a process that has not called the allocator yet: no
    header, zeroed globals. *)
Definition initial_state (brk0 limit : Z) (pool : list Z) (page : Z) : state :=
  {| heap := ∅; mem := fun _ => Byte.x00;
     global_base := NULL; last := NULL; prealloc := false;
     brk := brk0; brk_limit := limit; mmap_pool := pool; page_size := page |}.

(** The block size of a request of [sz] bytes. *)
Definition block_size (sz : Z) : Z := ALIGN (wrap (sz + META_SIZE)).

(** A request is served from the arena when its block size is below the
    mapping threshold; for sizes that do not wrap around this is the
    bound [small_request]. *)
Definition small_request (sz : Z) : Prop :=
  0 < sz /\ sz + META_SIZE <= MMAP_THRESHOLD - ALIGNMENT.


(** ** Client programs and example states *)

(** A call of one of the four public operations. *)
Inductive call : Type :=
| Malloc (sz : Z)
| Calloc (nmemb sz : Z)
| Free (ptr : Z)
| Realloc (ptr sz : Z).

(** Runs the calls in order and collects what they return ([os_free]
    returns nothing, recorded as [NULL]). *)
Fixpoint run (fuel : nat) (calls : list call) : M (list Z) :=
  match calls with
  | [] => ret []
  | c :: rest =>
      let* v := match c with
                | Malloc sz => os_malloc fuel sz
                | Calloc nmemb sz => os_calloc fuel nmemb sz
                | Free ptr => os_free ptr ;;; ret NULL
                | Realloc ptr sz => os_realloc fuel ptr sz
                end in
      let* vs := run fuel rest in
      ret (v :: vs)
  end.

Definition value_of {A : Type} (r : result A) : option A :=
  match r with
  | Ret v _ => Some v
  | _ => None
  end.

Definition state_after {A : Type} (r : result A) (d : state) : state :=
  match r with
  | Ret _ s => s
  | _ => d
  end.

(** A fresh process: break at 1000000 with room to grow, two addresses
    for mappings, pages of 4096 bytes. *)
Definition fresh : state :=
  initial_state 1000000 100000000 [50000000; 60000000] 4096.

(** A fresh process whose break cannot move further than the 128 KiB
    of the first arena growth. *)
Definition tight : state :=
  initial_state 1000000 (1000000 + MMAP_THRESHOLD) [50000000] 4096.

(** The arena after one allocation that was released. *)
Definition freed_one : state :=
  state_after (run 8 [Malloc 8; Free 1000032] fresh) fresh.

(** The arena of [tight] after its first allocation: the break is at its
    limit. *)
Definition tight_one : state :=
  state_after (run 8 [Malloc 8] tight) tight.

(** The arena of [tight] after a second allocation that takes all that
    was left: no free block, the break at its limit. *)
Definition tight_full : state :=
  state_after (run 8 [Malloc 8; Malloc 131000] tight) tight.

(** The arena after six calls: a released block of 104 bytes at its
    start, two allocated blocks, and a released block of 48 bytes at its
    end, which [last] refers to. *)
Definition free_ends : state :=
  state_after
    (run 8 [Malloc 72; Malloc 16; Malloc 130840; Free 1000184;
            Malloc 130840; Free 1000032] fresh)
    fresh.

(** ** The block list as a mathematical list *)

(** What the list says about a block: where its header is, its size and
    its status. *)
Record node : Type := mk_node {
  addr : Z;
  nsize : Z;
  nstatus : block_status
}.

Definition node_of (a : Z) (b : block_meta) : node :=
  mk_node a (size b) (status b).

(** [lseg h a l]: following the [next] fields from [a] in the headers [h]
    visits exactly the blocks [l] and then reaches [NULL]. *)
Inductive lseg (h : gmap Z block_meta) : Z -> list node -> Prop :=
| lseg_nil : lseg h NULL []
| lseg_cons (a : Z) (b : block_meta) (l : list node) :
    a <> NULL -> h !! a = Some b -> lseg h (next b) l ->
    lseg h a (node_of a b :: l).

(** The block list of a state starts at [global_base]. *)
Definition block_list (s : state) (l : list node) : Prop :=
  lseg (heap s) (global_base s) l.

Definition head_addr (l : list node) : Z :=
  match l with
  | [] => NULL
  | n :: _ => addr n
  end.

(** The byte extent of a list: the sum of the sizes of its blocks. *)
Fixpoint total_size (l : list node) : Z :=
  match l with
  | [] => 0
  | n :: l' => nsize n + total_size l'
  end.

(** Is there a block that is free and followed by a free block? *)
Fixpoint has_adjacent_free (l : list node) : bool :=
  match l with
  | [] => false
  | n1 :: l' =>
      match l' with
      | [] => false
      | n2 :: _ =>
          (status_eqb (nstatus n1) STATUS_FREE && status_eqb (nstatus n2) STATUS_FREE)
          || has_adjacent_free l'
      end
  end.

(** The blocks of a list lie one after the other in the address space,
    so their sizes are not negative and add up to less than [2^64]. *)
Definition sizes_fit (l : list node) : Prop :=
  Forall (fun n => 0 <= nsize n) l /\ total_size l < 2 ^ 64.

(** Two contents of a header address that differ at most in [prev]. *)
Definition same_block (o o' : option block_meta) : Prop :=
  match o, o' with
  | Some b, Some b' => size b = size b' /\ status b = status b' /\ next b = next b'
  | None, None => True
  | _, _ => False
  end.

(** Two contents of a header address with the same status. *)
Definition same_status (o o' : option block_meta) : Prop :=
  match o, o' with
  | Some b, Some b' => status b = status b'
  | None, None => True
  | _, _ => False
  end.

(** The first block of a list is not free (or the list is empty). *)
Definition head_not_free (l : list node) : Prop :=
  match l with
  | [] => True
  | n :: _ => nstatus n <> STATUS_FREE
  end.

(** Two lists start with a block at the same address and of the same
    status (or are both empty). *)
Definition same_head (l l' : list node) : Prop :=
  match l, l' with
  | [], [] => True
  | n :: _, n' :: _ => addr n = addr n' /\ nstatus n = nstatus n'
  | _, _ => False
  end.

(** Everything but the headers and [last] is the same in both states. *)
Definition only_heap_and_last (s s' : state) : Prop :=
  mem s' = mem s /\ global_base s' = global_base s /\
  prealloc s' = prealloc s /\ brk s' = brk s /\ brk_limit s' = brk_limit s /\
  mmap_pool s' = mmap_pool s /\ page_size s' = page_size s.

(** ** Specifications *)

(** [outcome r Q E]: the run [r] accessed no invalid memory and stayed
    within its loop budget; if it returned, [Q] holds of the value and
    the state, and if the process was terminated by [DIE], [E] holds. *)
Definition outcome {A : Type} (r : result A) (Q : A -> state -> Prop) (E : Prop) : Prop :=
  match r with
  | Ret v s' => Q v s'
  | Die _ => E
  | Fault => False
  | OutOfFuel => False
  end.

(** A header that is not a mapped one stays so. *)
Definition keeps (b b' : block_meta) : Prop :=
  status b <> STATUS_MAPPED -> status b' <> STATUS_MAPPED.

(** Every header of [h] is still a header in [h']. *)
Definition heap_ext (h h' : gmap Z block_meta) : Prop :=
  forall (a : Z) (b : block_meta),
    h !! a = Some b -> exists b', h' !! a = Some b' /\ keeps b b'.

(** What the arena operations do to a state: the payload bytes are not
    touched and no header disappears. *)
Definition grows (s s' : state) : Prop :=
  mem s' = mem s /\ heap_ext (heap s) (heap s').

(** The break and the headers are at positive addresses. *)
Definition valid_addresses (s : state) : Prop :=
  0 < brk s /\ forall a, is_Some (heap s !! a) -> 0 < a.

(** A state in which the block list [l] starts at [global_base] and
    [last] refers to a header once the arena is initialised. *)
Definition arena_ok (s : state) (l : list node) : Prop :=
  block_list s l /\ sizes_fit l /\ valid_addresses s /\
  (last s = NULL \/ is_Some (heap s !! last s)) /\
  (prealloc s = true -> last s <> NULL).

(** The arena after two allocations that were both released: three free
    blocks in a row. *)
Definition three_free : state :=
  state_after
    (run 8 [Malloc 8; Malloc 8; Free 1000032; Free 1000072] fresh)
    fresh.

Definition three_free_list : list node :=
  [ mk_node 1000000 40 STATUS_FREE;
    mk_node 1000040 40 STATUS_FREE;
    mk_node 1000080 130992 STATUS_FREE ].

(** [best_fit] is [NULL] or a block that holds at least [sz] bytes. *)
Definition fits (s : state) (sz best_fit : Z) : Prop :=
  best_fit = NULL \/
  (best_fit <> NULL /\ exists b, heap s !! best_fit = Some b /\ sz <= size b).

(** What a small request gets: an allocated block of at least the block
    size of the request, with less slack than a block needs. *)
Definition allocated_for (sz p : Z) (s' : state) : Prop :=
  0 < p - META_SIZE /\
  exists b,
    heap s' !! (p - META_SIZE) = Some b /\
    status b = STATUS_ALLOC /\
    block_size sz <= size b /\
    wrap (size b - block_size sz) < META_SIZE + ALIGNMENT.


(** [mmap] has no region to give. *)
Definition mmap_fails (s : state) : Prop :=
  match mmap_pool s with
  | [] => True
  | a :: _ => a = MAP_FAILED
  end.

(** The arena after two allocations of 8 bytes. *)
Definition two_alloc : state :=
  state_after (run 8 [Malloc 8; Malloc 8] fresh) fresh.

Definition two_alloc_list : list node :=
  [ mk_node 1000000 40 STATUS_ALLOC;
    mk_node 1000040 40 STATUS_ALLOC;
    mk_node 1000080 130992 STATUS_FREE ].


(** ** Specifications of the single operations *)

(** A free block that holds [sz] bytes. *)
Definition fitting (sz : Z) (m : node) : Prop :=
  nstatus m = STATUS_FREE /\ sz <= nsize m.

(** What the scan of [find_best_fit] selects in the list [l]: no block
    when every fitting block is of [SIZE_MAX] bytes or more, and else the
    first of the smallest fitting blocks. *)
Definition is_best_fit (sz : Z) (l : list node) (r : Z) : Prop :=
  (r = NULL /\ forall m, In m l -> fitting sz m -> SIZE_MAX <= nsize m) \/
  (exists l1 n l2,
     l = l1 ++ n :: l2 /\ r = addr n /\ fitting sz n /\ nsize n < SIZE_MAX /\
     (forall m, In m l1 -> fitting sz m -> nsize n < nsize m) /\
     (forall m, In m l2 -> fitting sz m -> nsize n <= nsize m)).

(** The scan of [find_best_fit] on the list of blocks. *)
Fixpoint best_fit_scan (sz : Z) (l : list node) (best_fit best_fit_size : Z) : Z * Z :=
  match l with
  | [] => (best_fit, best_fit_size)
  | n :: l' =>
      if status_eqb (nstatus n) STATUS_FREE && (sz <=? nsize n)
         && (nsize n <? best_fit_size)
      then best_fit_scan sz l' (addr n) (nsize n)
      else best_fit_scan sz l' best_fit best_fit_size
  end.

Definition free_ends_list : list node :=
  [ mk_node 1000000 104 STATUS_FREE;
    mk_node 1000104 48 STATUS_ALLOC;
    mk_node 1000152 130872 STATUS_ALLOC;
    mk_node 1131024 48 STATUS_FREE ].

(** The arena of [tight] after two allocations, the first of which was
    released: [last] still refers to the first block, which is free, and
    the break is at its limit. *)
Definition tight_freed : state :=
  state_after (run 8 [Malloc 8; Malloc 8; Free 1000032] tight) tight.

Definition tight_freed_list : list node :=
  [ mk_node 1000000 40 STATUS_FREE;
    mk_node 1000040 40 STATUS_ALLOC;
    mk_node 1000080 130992 STATUS_FREE ].

(** A process that holds one mapped block. *)
Definition one_mapped : state :=
  state_after (run 8 [Malloc 200000] fresh) fresh.

(** The arena after one allocation of 100 bytes. *)
Definition one_alloc : state :=
  state_after (run 8 [Malloc 100] fresh) fresh.

(** The state of a process whose first small request was of [sz] bytes:
    the arena of 128 KiB that started at the break of [s] holds a first
    block of the block size of the request, of status [st], and a free
    block with the rest; [lst] is the value of [last]. *)
Definition first_arena (s : state) (sz : Z) (st : block_status) (lst : Z) : state :=
  {| heap :=
       <[brk s := mk_block_meta (block_size sz) st NULL (brk s + block_size sz)]>
         (<[brk s + block_size sz :=
              mk_block_meta (MMAP_THRESHOLD - block_size sz) STATUS_FREE (brk s) NULL]>
            ∅);
     mem := mem s;
     global_base := brk s;
     last := lst;
     prealloc := true;
     brk := brk s + MMAP_THRESHOLD;
     brk_limit := brk_limit s;
     mmap_pool := mmap_pool s;
     page_size := page_size s |}.

(** A fresh process in which no region can be mapped. *)
Definition no_mapping : state :=
  initial_state 1000000 100000000 [] 4096.

(** ** The layout of the arena *)

(** The blocks of [l] lie in the address space in the order of the list
    and do not overlap: each one starts at or after [lo] and the end of
    the block before it, is at least as long as a header, and the last
    one ends at or before [hi]. *)
Fixpoint tiled_from (lo : Z) (l : list node) (hi : Z) : Prop :=
  match l with
  | [] => lo <= hi
  | n :: l' =>
      lo <= addr n /\ META_SIZE <= nsize n /\
      tiled_from (addr n + nsize n) l' hi
  end.

(** The layout in which the C program and its embedding agree: the blocks
    of the list do not overlap and end at or before the break, [last]
    refers to a block of the list, and the headers of mapped regions lie
    where the break cannot go. *)
Definition tiled (s : state) (l : list node) : Prop :=
  tiled_from 1 l (brk s) /\
  (last s = NULL \/ In (last s) (map addr l)) /\
  (forall a b, heap s !! a = Some b -> status b = STATUS_MAPPED ->
               brk_limit s <= a).

(** The payload of a block: the bytes of its extent after its header. *)
Definition payload (n : node) (x : Z) : Prop :=
  addr n + META_SIZE <= x < addr n + nsize n.


(** The byte ranges of length [la] at [a] and of length [lb] at [b] have
    a byte in common. *)
Definition ranges_meet (a la b lb : Z) : Prop :=
  a < b + lb /\ b < a + la.

(** The arena after an allocation of 8 bytes, one of 24 bytes, and the
    release of the first: [last] still refers to the first block, which
    is free and not the last of the list. *)
Definition first_released : state :=
  state_after (run 8 [Malloc 8; Malloc 24; Free 1000032] fresh) fresh.
(** * Machine arithmetic *)

Lemma wrap_small (z : Z) : 0 <= z < 2 ^ 64 -> wrap z = z.
Proof. intros H. unfold wrap, SIZE_T_BITS. apply Z.mod_small. exact H. Qed.

Lemma to_intptr_small (z : Z) : 0 <= z < 2 ^ 63 -> to_intptr z = z.
Proof.
  intros H. unfold to_intptr. rewrite wrap_small by lia.
  destruct (Z.ltb_spec z (2 ^ 63)); lia.
Qed.

Lemma to_int_small (z : Z) : 0 <= z < 2 ^ 31 -> to_int z = z.
Proof.
  intros H. unfold to_int. rewrite Z.mod_small by lia.
  destruct (Z.ltb_spec z (2 ^ 31)); lia.
Qed.

(** Clearing the three low bits rounds down to a multiple of 8. *)
Lemma land_lnot_7 (y : Z) : Z.land y (Z.lnot 7) = 8 * (y / 8).
Proof.
  rewrite <- Z.ldiff_land.
  change 7 with (Z.ones 3).
  rewrite Z.ldiff_ones_r by lia.
  rewrite Z.shiftl_mul_pow2, Z.shiftr_div_pow2 by lia.
  change (2 ^ 3) with 8. lia.
Qed.

Lemma ALIGN_spec (x : Z) :
  0 <= x -> x + 7 < 2 ^ 64 -> ALIGN x = 8 * ((x + 7) / 8).
Proof.
  intros H0 H1. unfold ALIGN, ALIGNMENT.
  change (8 - 1) with 7.
  rewrite wrap_small by lia. apply land_lnot_7.
Qed.

Lemma ALIGN_bounds (x : Z) :
  0 <= x -> x + 7 < 2 ^ 64 -> x <= ALIGN x < x + 8 /\ ALIGN x mod 8 = 0.
Proof.
  intros H0 H1. rewrite ALIGN_spec by assumption.
  pose proof (Z.div_mod (x + 7) 8 ltac:(lia)) as Hd.
  pose proof (Z.mod_pos_bound (x + 7) 8 ltac:(lia)) as Hm.
  split; [lia |].
  rewrite Z.mul_comm. apply Z.mod_mul. lia.
Qed.

Lemma block_size_small (sz : Z) :
  small_request sz ->
  sz + META_SIZE <= block_size sz < MMAP_THRESHOLD /\
  block_size sz < sz + META_SIZE + 8.
Proof.
  unfold small_request, block_size, META_SIZE, MMAP_THRESHOLD, ALIGNMENT.
  intros [H0 H1].
  rewrite wrap_small by lia.
  pose proof (ALIGN_bounds (sz + 32) ltac:(lia) ltac:(lia)) as [Hb Hm].
  pose proof (Z.div_mod (ALIGN (sz + 32)) 8 ltac:(lia)) as Hd.
  rewrite Hm in Hd.
  lia.
Qed.

(** * Reasoning about computations *)

Lemma bind_Ret {A B : Type} (c : M A) (k : A -> M B) (s s1 : state) (v : A) :
  c s = Ret v s1 -> bind c k s = k v s1.
Proof. intros H. unfold bind. rewrite H. reflexivity. Qed.

Lemma load_Ret {A : Type} (f : block_meta -> A) (block : Z) (s : state) (b : block_meta) :
  block <> NULL -> heap s !! block = Some b -> load f block s = Ret (f b) s.
Proof.
  intros Hn Hb. unfold load.
  destruct (Z.eqb_spec block NULL); [contradiction |].
  rewrite Hb. reflexivity.
Qed.

Lemma store_Ret (f : block_meta -> block_meta) (block : Z) (s : state) :
  block <> NULL ->
  store f block s =
  Ret tt (set_heap (<[block := f (default zero_meta (heap s !! block))]> (heap s)) s).
Proof.
  intros Hn. unfold store.
  destruct (Z.eqb_spec block NULL); [contradiction | reflexivity].
Qed.

(** Rewriting rules that run a computation one statement at a time. *)

Lemma bind_ret {A B : Type} (v : A) (k : A -> M B) (s : state) :
  bind (ret v) k s = k v s.
Proof. reflexivity. Qed.

Lemma bind_get {A B : Type} (f : state -> A) (k : A -> M B) (s : state) :
  bind (get f) k s = k (f s) s.
Proof. reflexivity. Qed.

Lemma bind_modify {B : Type} (f : state -> state) (k : unit -> M B) (s : state) :
  bind (modify f) k s = k tt (f s).
Proof. reflexivity. Qed.

Lemma bind_assoc {A B C : Type} (c : M A) (k1 : A -> M B) (k2 : B -> M C) (s : state) :
  bind (bind c k1) k2 s = bind c (fun x => bind (k1 x) k2) s.
Proof. unfold bind. destruct (c s); reflexivity. Qed.

Lemma bind_DIE_false {B : Type} (msg : string) (k : unit -> M B) (s : state) :
  bind (DIE false msg) k s = k tt s.
Proof. reflexivity. Qed.

Lemma bind_DIE_true {B : Type} (msg : string) (k : unit -> M B) (s : state) :
  bind (DIE true msg) k s = Die msg.
Proof. reflexivity. Qed.

Lemma bind_load {A B : Type} (f : block_meta -> A) (block : Z) (k : A -> M B)
      (s : state) (b : block_meta) :
  block <> NULL -> heap s !! block = Some b ->
  bind (load f block) k s = k (f b) s.
Proof. intros Hn Hb. apply bind_Ret. apply load_Ret; assumption. Qed.

Lemma bind_store {B : Type} (f : block_meta -> block_meta) (block : Z)
      (k : unit -> M B) (s : state) :
  block <> NULL ->
  bind (store f block) k s =
  k tt (set_heap (<[block := f (default zero_meta (heap s !! block))]> (heap s)) s).
Proof. intros Hn. apply bind_Ret. apply store_Ret; assumption. Qed.

Lemma sbrk_zero (s : state) : sbrk 0 s = Ret (brk s) s.
Proof. reflexivity. Qed.

Lemma sbrk_ok (inc : Z) (s : state) :
  inc <> 0 -> brk s + inc <= brk_limit s ->
  sbrk inc s = Ret (brk s) (set_brk (brk s + inc) s).
Proof.
  intros H0 H1. unfold sbrk.
  destruct (Z.eqb_spec inc 0); [contradiction |].
  destruct (Z.leb_spec (brk s + inc) (brk_limit s)); [reflexivity | lia].
Qed.

Lemma sbrk_fail (inc : Z) (s : state) :
  inc <> 0 -> brk_limit s < brk s + inc ->
  sbrk inc s = Ret MAP_FAILED s.
Proof.
  intros H0 H1. unfold sbrk.
  destruct (Z.eqb_spec inc 0); [contradiction |].
  destruct (Z.leb_spec (brk s + inc) (brk_limit s)); [lia | reflexivity].
Qed.

(** Turning boolean tests on integers into propositions. *)
Ltac zbool :=
  repeat match goal with
    | H : (_ <=? _) = true |- _ => apply Z.leb_le in H
    | H : (_ <=? _) = false |- _ => apply Z.leb_gt in H
    | H : (_ <? _) = true |- _ => apply Z.ltb_lt in H
    | H : (_ <? _) = false |- _ => apply Z.ltb_ge in H
    | H : (_ =? _) = true |- _ => apply Z.eqb_eq in H
    | H : (_ =? _) = false |- _ => apply Z.eqb_neq in H
    end.

Lemma status_eqb_eq (a b : block_status) : status_eqb a b = true <-> a = b.
Proof. destruct a, b; simpl; split; intros H; try reflexivity; discriminate. Qed.

Lemma status_eqb_neq (a b : block_status) : status_eqb a b = false <-> a <> b.
Proof. destruct a, b; simpl; split; intros H; try reflexivity; try discriminate; congruence. Qed.

Lemma default_Some {A : Type} (d x : A) : default d (Some x) = x.
Proof. reflexivity. Qed.

(** Arithmetic on addresses and sizes, with the constants unfolded. *)
Ltac addr_lia :=
  unfold NULL, MAP_FAILED, META_SIZE, MMAP_THRESHOLD, ALIGNMENT in *; lia.

(** Projections of updated states. *)
Ltac sstate :=
  cbn [heap mem global_base last prealloc brk brk_limit mmap_pool page_size
       set_heap set_mem set_global_base set_last set_prealloc set_brk
       set_mmap_pool].

(** Lookups in updated header maps. *)
Ltac hsimpl :=
  repeat first [ rewrite lookup_insert_eq
               | rewrite lookup_insert_ne by addr_lia
               | rewrite insert_insert_eq
               | rewrite default_Some ];
  cbn [with_status with_size with_next with_prev size status prev next].

Ltac solve_lookup :=
  sstate; hsimpl; first [ reflexivity | eassumption ].

(** One statement that reads a header field. *)
Ltac step_load :=
  rewrite ?bind_assoc;
  erewrite bind_load; [ | addr_lia | solve_lookup ];
  cbn [with_status with_size with_next with_prev size status prev next].

(** Statements that read or write a global, or return. *)
Ltac step_get := rewrite ?bind_assoc; rewrite bind_get; sstate.
Ltac step_modify := rewrite ?bind_assoc; rewrite bind_modify; sstate.
Ltac step_ret := rewrite ?bind_assoc; rewrite bind_ret; sstate.

(** One statement that writes a header field. *)
Ltac step_store :=
  rewrite ?bind_assoc;
  unfold store_size, store_status, store_prev, store_next;
  rewrite bind_store by addr_lia;
  sstate; hsimpl.

(** * The block list *)

Lemma same_block_refl (o : option block_meta) : same_block o o.
Proof. destruct o; simpl; auto. Qed.

Lemma same_block_trans (o1 o2 o3 : option block_meta) :
  same_block o1 o2 -> same_block o2 o3 -> same_block o1 o3.
Proof.
  destruct o1, o2, o3; simpl; try tauto.
  intros (? & ? & ?) (? & ? & ?). repeat split; congruence.
Qed.

Lemma same_block_status (o o' : option block_meta) :
  same_block o o' -> same_status o o'.
Proof. destruct o, o'; simpl; tauto. Qed.

Lemma same_status_refl (o : option block_meta) : same_status o o.
Proof. destruct o; simpl; auto. Qed.

Lemma same_status_trans (o1 o2 o3 : option block_meta) :
  same_status o1 o2 -> same_status o2 o3 -> same_status o1 o3.
Proof. destruct o1, o2, o3; simpl; try tauto. congruence. Qed.

Lemma lseg_head (h : gmap Z block_meta) (a : Z) (l : list node) :
  lseg h a l -> a = head_addr l.
Proof. intros H. destruct H; reflexivity. Qed.

Lemma lseg_nil_inv (h : gmap Z block_meta) (l : list node) :
  lseg h NULL l -> l = [].
Proof. intros H. inversion H; subst; [reflexivity | contradiction]. Qed.

(** The headers determine the list. *)
Lemma lseg_functional (h : gmap Z block_meta) (a : Z) (l1 l2 : list node) :
  lseg h a l1 -> lseg h a l2 -> l1 = l2.
Proof.
  intros H1. revert l2.
  induction H1 as [| a b l Ha Hb Hl IH]; intros l2 H2.
  - symmetry. eapply lseg_nil_inv; eassumption.
  - inversion H2 as [E | a' b' l' Ha' Hb' Hl']; subst.
    + contradiction.
    + assert (b' = b) by congruence. subst b'.
      f_equal. apply IH. assumption.
Qed.

(** From every block of the list the rest of the list is a list. *)
Lemma lseg_suffix (h : gmap Z block_meta) (a x : Z) (l : list node) :
  lseg h a l -> In x (map addr l) ->
  exists l', lseg h x l' /\ (length l' <= length l)%nat.
Proof.
  intros H. induction H as [| a b l Ha Hb Hl IH]; intros Hin.
  - destruct Hin.
  - destruct Hin as [E | Hin].
    + simpl in E. subst x. exists (node_of a b :: l). split.
      * constructor; assumption.
      * reflexivity.
    + destruct (IH Hin) as (l' & Hl' & Hlen).
      exists l'. split; [assumption | simpl; lia].
Qed.

(** A list that ends at [NULL] visits no block twice. *)
Lemma lseg_head_fresh (h : gmap Z block_meta) (a : Z) (b : block_meta) (l : list node) :
  a <> NULL -> h !! a = Some b -> lseg h (next b) l -> ~ In a (map addr l).
Proof.
  intros Ha Hb Hl Hin.
  destruct (lseg_suffix _ _ _ _ Hl Hin) as (l' & Hl' & Hlen).
  assert (E : l' = node_of a b :: l).
  { eapply lseg_functional; [exact Hl' |]. constructor; assumption. }
  subst l'. simpl in Hlen. lia.
Qed.

Lemma lseg_NoDup (h : gmap Z block_meta) (a : Z) (l : list node) :
  lseg h a l -> NoDup (map addr l).
Proof.
  intros H. induction H as [| a b l Ha Hb Hl IH].
  - constructor.
  - simpl. constructor; [| assumption].
    rewrite list_elem_of_In. eapply lseg_head_fresh; eassumption.
Qed.

(** The list only depends on the size, status and [next] of its own
    blocks. *)
Lemma lseg_ext (h h' : gmap Z block_meta) (a : Z) (l : list node) :
  lseg h a l ->
  (forall x, In x (map addr l) -> same_block (h !! x) (h' !! x)) ->
  lseg h' a l.
Proof.
  intros H. induction H as [| a b l Ha Hb Hl IH]; intros Hsame.
  - constructor.
  - pose proof (Hsame a (or_introl eq_refl)) as Hx.
    rewrite Hb in Hx. destruct (h' !! a) as [b' |] eqn:Hb'; [| destruct Hx].
    simpl in Hx. destruct Hx as (Hs & Hst & Hn).
    replace (node_of a b) with (node_of a b')
      by (unfold node_of; congruence).
    constructor; [assumption | assumption |].
    rewrite <- Hn. apply IH.
    intros x Hin. apply Hsame. right. assumption.
Qed.

Lemma lseg_lookup (h : gmap Z block_meta) (a x : Z) (l : list node) :
  lseg h a l -> In x (map addr l) -> x <> NULL /\ is_Some (h !! x).
Proof.
  intros H. induction H as [| a b l Ha Hb Hl IH]; intros Hin.
  - destruct Hin.
  - destruct Hin as [E | Hin].
    + simpl in E. subst x. split; [assumption | eauto].
    + apply IH. assumption.
Qed.

(** Every list is a run of free blocks followed by a list that does not
    start with a free block. *)
Lemma free_prefix (l : list node) :
  exists fs rest,
    l = fs ++ rest /\
    Forall (fun n => nstatus n = STATUS_FREE) fs /\
    head_not_free rest.
Proof.
  induction l as [| n l IH].
  - exists [], []. repeat split. constructor.
  - destruct (status_eqb (nstatus n) STATUS_FREE) eqn:E.
    + apply status_eqb_eq in E.
      destruct IH as (fs & rest & -> & Hfs & Hrest).
      exists (n :: fs), rest. repeat split; [constructor; assumption | assumption].
    + apply status_eqb_neq in E.
      exists [], (n :: l). repeat split; [constructor | assumption].
Qed.

Lemma total_size_app (l1 l2 : list node) :
  total_size (l1 ++ l2) = total_size l1 + total_size l2.
Proof. induction l1 as [| n l1 IH]; simpl; lia. Qed.

Lemma total_size_nonneg (l : list node) :
  Forall (fun n => 0 <= nsize n) l -> 0 <= total_size l.
Proof. induction 1; simpl; lia. Qed.

(** * Coalescing *)

Lemma only_heap_and_last_refl (s : state) : only_heap_and_last s s.
Proof. unfold only_heap_and_last. tauto. Qed.

Lemma only_heap_and_last_trans (s1 s2 s3 : state) :
  only_heap_and_last s1 s2 -> only_heap_and_last s2 s3 ->
  only_heap_and_last s1 s3.
Proof.
  unfold only_heap_and_last.
  intros (? & ? & ? & ? & ? & ? & ?) (? & ? & ? & ? & ? & ? & ?).
  repeat split; congruence.
Qed.

(** The loop of [coalesce_blocks] absorbs the run [fs] of free blocks
    that follows [block] and stops in front of [rest]. *)
Lemma coalesce_loop_spec (fs : list node) :
  forall (fuel : nat) (s : state) (block : Z) (b : block_meta) (rest : list node),
    block <> NULL -> heap s !! block = Some b ->
    lseg (heap s) (next b) (fs ++ rest) ->
    Forall (fun n => nstatus n = STATUS_FREE) fs ->
    head_not_free rest ->
    ~ In block (map addr (fs ++ rest)) ->
    (length fs < fuel)%nat ->
    0 <= size b -> Forall (fun n => 0 <= nsize n) fs ->
    size b + total_size fs < 2 ^ 64 ->
    exists s',
      coalesce_loop fuel block s = Ret tt s' /\
      only_heap_and_last s s' /\
      heap s' !! block =
        Some (mk_block_meta (size b + total_size fs) (status b) (prev b) (head_addr rest)) /\
      lseg (heap s') (head_addr rest) rest /\
      (forall x, x <> block -> same_block (heap s !! x) (heap s' !! x)) /\
      (last s' = last s \/ last s' = block).
Proof.
  induction fs as [| f fs IH];
    intros fuel s block b rest Hblock Hb Hl Hfree Hrest Hfresh Hfuel Hsz Hszs Hsum.
  - (* no free block follows *)
    simpl in Hl, Hsum.
    destruct fuel as [| fuel]; [simpl in Hfuel; lia |].
    pose proof (lseg_head _ _ _ Hl) as Hnext.
    exists s. split; [| split; [apply only_heap_and_last_refl |]].
    + cbn [coalesce_loop]. step_load. rewrite Hnext.
      destruct rest as [| r rest].
      * reflexivity.
      * inversion Hl as [| a br l' Ha Hbr Hl' Ea El]; subst.
        cbn [head_addr node_of addr].
        destruct (Z.eqb_spec (next b) NULL); [contradiction |].
        step_load.
        simpl in Hrest. apply status_eqb_neq in Hrest. rewrite Hrest.
        reflexivity.
    + split; [| split; [| split]].
      * rewrite Hb. destruct b; simpl in *. f_equal. f_equal; [lia | congruence].
      * rewrite <- Hnext. assumption.
      * intros x _. apply same_block_refl.
      * left. reflexivity.
  - (* the next block [f] is free: absorb it *)
    destruct fuel as [| fuel]; [simpl in Hfuel; lia |].
    simpl in Hl.
    inversion Hl as [| n bn l' Hn Hbn Hl' En El]; subst. clear Hl.
    inversion Hfree as [| ? ? Hf Hfree']; subst. clear Hfree.
    inversion Hszs as [| ? ? Hfs Hszs']; subst. clear Hszs.
    cbn [node_of nstatus nsize] in Hf, Hfs.
    cbn [total_size node_of nsize] in Hsum.
    pose proof (total_size_nonneg fs Hszs') as Htot.
    assert (Hnb : next b <> block).
    { intros E. apply Hfresh. simpl. left. exact E. }
    assert (Hfresh' : ~ In block (map addr (fs ++ rest))).
    { intros Hin. apply Hfresh. simpl. right. exact Hin. }
    pose proof (lseg_head _ _ _ Hl') as Hnn.
    set (b2 := mk_block_meta (size b + size bn) (status b) (prev b) (next bn)).
    (* the state after one round of the loop *)
    assert (Hround : exists s1,
      coalesce_loop (S fuel) block s = coalesce_loop fuel block s1 /\
      only_heap_and_last s s1 /\
      heap s1 !! block = Some b2 /\
      (forall x, x <> block -> same_block (heap s !! x) (heap s1 !! x)) /\
      (last s1 = last s \/ last s1 = block)).
    { cbn [coalesce_loop]. step_load.
      destruct (Z.eqb_spec (next b) NULL); [contradiction |].
      step_load. rewrite Hf. cbn [status_eqb].
      step_load. step_load.
      rewrite wrap_small by lia.
      step_store. rewrite Hb, default_Some.
      cbn [with_size size status prev next].
      step_load. step_load.
      step_store.
      step_load.
      destruct (Z.eqb_spec (next bn) NULL) as [E | E].
      - step_modify.
        eexists. split; [reflexivity |]. sstate.
        split; [unfold only_heap_and_last; sstate; tauto |].
        split; [hsimpl; reflexivity |].
        split; [| right; reflexivity].
        intros x Hx. rewrite lookup_insert_ne by congruence.
        apply same_block_refl.
      - assert (Hnb' : next bn <> block).
        { intros E'. apply Hfresh'. rewrite Hnn in E'. rewrite <- E'.
          destruct (fs ++ rest) as [| q l]; [contradiction |].
          simpl. left. reflexivity. }
        step_store.
        eexists. split; [reflexivity |]. sstate.
        split; [unfold only_heap_and_last; sstate; tauto |].
        split; [rewrite lookup_insert_ne by congruence; hsimpl; reflexivity |].
        split; [| left; reflexivity].
        intros x Hx.
        destruct (Z.eq_dec x (next bn)) as [-> | Hxn].
        + assert (Hnn' : exists bnn, heap s !! next bn = Some bnn).
          { inversion Hl'; subst; [congruence | eauto]. }
          destruct Hnn' as (bnn & Hbnn).
          rewrite lookup_insert_eq, Hbnn, default_Some. simpl. tauto.
        + rewrite !lookup_insert_ne by congruence.
          apply same_block_refl. }
    destruct Hround as (s1 & Hstep & Hohl1 & Hb1 & Hframe1 & Hlast1).
    assert (Hl1 : lseg (heap s1) (next b2) (fs ++ rest)).
    { eapply lseg_ext; [exact Hl' |].
      intros x Hin. apply Hframe1. intros E. subst x. contradiction. }
    destruct (IH fuel s1 block b2 rest Hblock Hb1 Hl1 Hfree' Hrest Hfresh'
                 ltac:(simpl in Hfuel; lia) ltac:(simpl; lia) Hszs'
                 ltac:(simpl; lia))
      as (s' & Hrun & Hohl & Hb' & Hrest' & Hframe & Hlast).
    exists s'. split; [rewrite Hstep; exact Hrun |].
    split; [eapply only_heap_and_last_trans; eassumption |].
    split; [| split; [assumption | split]].
    + rewrite Hb'. cbn [b2 size status prev total_size node_of nsize].
      f_equal. f_equal. lia.
    + intros x Hx. eapply same_block_trans; [apply Hframe1 | apply Hframe]; assumption.
    + destruct Hlast as [-> | ->]; [assumption | right; reflexivity].
Qed.

Lemma has_adjacent_free_cons_not_free (n : node) (l : list node) :
  nstatus n <> STATUS_FREE ->
  has_adjacent_free (n :: l) = has_adjacent_free l.
Proof.
  intros Hn. apply status_eqb_neq in Hn.
  destruct l as [| n2 l]; [reflexivity |].
  cbn [has_adjacent_free]. rewrite Hn. reflexivity.
Qed.

Lemma has_adjacent_free_cons_head (n : node) (l : list node) :
  head_not_free l ->
  has_adjacent_free (n :: l) = has_adjacent_free l.
Proof.
  intros Hl. destruct l as [| n2 l]; [reflexivity |].
  simpl in Hl. apply status_eqb_neq in Hl.
  cbn [has_adjacent_free]. rewrite Hl, andb_false_r. reflexivity.
Qed.

Lemma same_head_not_free (l l' : list node) :
  same_head l l' -> head_not_free l -> head_not_free l'.
Proof.
  destruct l as [| n l], l' as [| n' l']; simpl; try tauto.
  intros (_ & E) H. congruence.
Qed.

(** The loop of [coalesce_everywhere], started at a block from which the
    list [l] is reachable, leaves a list without adjacent free blocks
    and with the same extent. *)
Lemma coalesce_everywhere_loop_spec (fuel : nat) :
  forall (inner : nat) (s : state) (cur : Z) (l : list node),
    lseg (heap s) cur l ->
    (length l < fuel)%nat -> (length l < inner)%nat ->
    sizes_fit l ->
    exists s' l',
      coalesce_everywhere_loop fuel inner cur s = Ret tt s' /\
      only_heap_and_last s s' /\
      lseg (heap s') cur l' /\
      has_adjacent_free l' = false /\
      total_size l' = total_size l /\
      same_head l l' /\
      (length l' <= length l)%nat /\
      (forall x, ~ In x (map addr l) -> same_block (heap s !! x) (heap s' !! x)) /\
      (forall x, same_status (heap s !! x) (heap s' !! x)) /\
      (last s' = last s \/ In (last s') (map addr l)).
Proof.
  induction fuel as [| fuel IH]; intros inner s cur l Hl Hfuel Hinner [Hnn Hsum].
  - lia.
  - destruct Hl as [| a b l2 Ha Hb Hl2].
    + (* the end of the list *)
      exists s, []. cbn [coalesce_everywhere_loop].
      change (NULL =? NULL) with true. cbv iota.
      split; [reflexivity |].
      split; [apply only_heap_and_last_refl |].
      split; [constructor |].
      repeat split; auto using same_block_refl, same_status_refl.
    + pose proof (lseg_head_fresh _ _ _ _ Ha Hb Hl2) as Hfresh.
      inversion Hnn as [| ? ? Hsz Hnn2]; subst. clear Hnn.
      cbn [node_of nsize] in Hsz.
      cbn [total_size node_of nsize] in Hsum.
      simpl in Hfuel, Hinner.
      cbn [coalesce_everywhere_loop].
      destruct (Z.eqb_spec a NULL); [contradiction |].
      step_load.
      destruct (status_eqb (status b) STATUS_FREE) eqn:Est.
      * (* a free block: absorb the free blocks that follow *)
        apply status_eqb_eq in Est.
        destruct (free_prefix l2) as (fs & rest & -> & Hfs & Hrest).
        apply Forall_app in Hnn2. destruct Hnn2 as [Hnnfs Hnnrest].
        rewrite total_size_app in Hsum.
        pose proof (total_size_nonneg _ Hnnfs) as Htfs.
        pose proof (total_size_nonneg _ Hnnrest) as Htrest.
        rewrite length_app in Hfuel, Hinner.
        destruct (coalesce_loop_spec fs inner s a b rest Ha Hb Hl2 Hfs Hrest
                    Hfresh ltac:(lia) Hsz Hnnfs ltac:(lia))
          as (s1 & Hrun & Hohl1 & Hb1 & Hrest1 & Hframe1 & Hlast1).
        unfold coalesce_blocks.
        destruct (Z.eqb_spec a NULL); [contradiction |].
        step_load. rewrite Est. cbn [status_eqb negb].
        rewrite (bind_Ret _ _ _ _ _ Hrun).
        step_load.
        destruct (IH inner s1 (head_addr rest) rest Hrest1 ltac:(lia) ltac:(lia)
                    ltac:(split; [assumption | lia]))
          as (s' & rest' & Hrun' & Hohl' & Hl' & Hadj & Htot & Hhead & Hlen
              & Hframe' & Hstat' & Hlast').
        assert (Hfresh_rest : ~ In a (map addr rest)).
        { intros Hin. apply Hfresh. rewrite map_app. apply in_or_app. right. exact Hin. }
        pose proof (Hframe' a Hfresh_rest) as Ha'.
        rewrite Hb1 in Ha'.
        destruct (heap s' !! a) as [b' |] eqn:Hb'; [| destruct Ha'].
        cbn [same_block size status next] in Ha'. destruct Ha' as (Es & Est' & En).
        exists s', (node_of a b' :: rest').
        split; [exact Hrun' |].
        split; [eapply only_heap_and_last_trans; eassumption |].
        split; [constructor; [assumption | assumption | rewrite <- En; exact Hl'] |].
        split.
        { rewrite has_adjacent_free_cons_head; [assumption |].
          eapply same_head_not_free; eassumption. }
        split.
        { cbn [total_size node_of nsize]. rewrite total_size_app. lia. }
        split.
        { cbn [same_head node_of addr nstatus]. split; congruence. }
        split.
        { simpl. rewrite length_app. lia. }
        split.
        { intros x Hx.
          eapply same_block_trans.
          - apply Hframe1. intros E. apply Hx. simpl. left. symmetry. exact E.
          - apply Hframe'. intros Hin. apply Hx. simpl. right.
            rewrite map_app. apply in_or_app. right. exact Hin. }
        split.
        { intros x. eapply same_status_trans; [| apply Hstat'].
          destruct (Z.eq_dec x a) as [-> | Hxa].
          - rewrite Hb, Hb1. reflexivity.
          - apply same_block_status. apply Hframe1. assumption. }
        { destruct Hlast' as [E | Hin].
          - destruct Hlast1 as [E1 | E1].
            + left. congruence.
            + right. simpl. left. congruence.
          - right. simpl. right. rewrite map_app. apply in_or_app. right. exact Hin. }
      * (* a block in use: go on with the next one *)
        apply status_eqb_neq in Est.
        step_ret. step_load.
        destruct (IH inner s (next b) l2 Hl2 ltac:(lia) ltac:(lia)
                    ltac:(split; [assumption | lia]))
          as (s' & l2' & Hrun' & Hohl' & Hl' & Hadj & Htot & Hhead & Hlen
              & Hframe' & Hstat' & Hlast').
        pose proof (Hframe' a Hfresh) as Ha'.
        rewrite Hb in Ha'.
        destruct (heap s' !! a) as [b' |] eqn:Hb'; [| destruct Ha'].
        cbn [same_block] in Ha'. destruct Ha' as (Es & Est' & En).
        exists s', (node_of a b' :: l2').
        split; [exact Hrun' |].
        split; [assumption |].
        split; [constructor; [assumption | assumption | rewrite <- En; exact Hl'] |].
        split.
        { rewrite has_adjacent_free_cons_not_free; [assumption |].
          cbn [node_of nstatus]. congruence. }
        split.
        { cbn [total_size node_of nsize]. lia. }
        split.
        { cbn [same_head node_of addr nstatus]. split; congruence. }
        split.
        { simpl. lia. }
        split.
        { intros x Hx. apply Hframe'. intros Hin. apply Hx. simpl. right. exact Hin. }
        split; [assumption |].
        destruct Hlast' as [E | Hin]; [left; assumption | right; simpl; right; exact Hin].
Qed.

(** * The arena operations *)

Lemma keeps_refl (b : block_meta) : keeps b b.
Proof. unfold keeps. tauto. Qed.

Lemma keeps_trans (b1 b2 b3 : block_meta) :
  keeps b1 b2 -> keeps b2 b3 -> keeps b1 b3.
Proof. unfold keeps. tauto. Qed.

Lemma heap_ext_refl (h : gmap Z block_meta) : heap_ext h h.
Proof. intros a b Hb. exists b. split; [assumption | apply keeps_refl]. Qed.

Lemma heap_ext_trans (h1 h2 h3 : gmap Z block_meta) :
  heap_ext h1 h2 -> heap_ext h2 h3 -> heap_ext h1 h3.
Proof.
  intros H12 H23 a b Hb.
  destruct (H12 a b Hb) as (b2 & Hb2 & Hk2).
  destruct (H23 a b2 Hb2) as (b3 & Hb3 & Hk3).
  exists b3. split; [assumption | eapply keeps_trans; eassumption].
Qed.

(** Writing a field other than the status of a header, or a status that
    is not [STATUS_MAPPED], keeps every header. *)
Lemma heap_ext_store (h h1 : gmap Z block_meta) (a : Z) (f : block_meta -> block_meta) :
  heap_ext h h1 -> (forall b, keeps b (f b)) ->
  heap_ext h (<[a := f (default zero_meta (h1 !! a))]> h1).
Proof.
  intros Hext Hf x b Hb.
  destruct (Hext x b Hb) as (b1 & Hb1 & Hk1).
  destruct (Z.eq_dec a x) as [-> | Hne].
  - rewrite lookup_insert_eq, Hb1, default_Some.
    eexists. split; [reflexivity |].
    eapply keeps_trans; [exact Hk1 | apply Hf].
  - rewrite lookup_insert_ne by assumption.
    exists b1. split; assumption.
Qed.

Lemma heap_ext_insert (h h1 : gmap Z block_meta) (a : Z) (v : block_meta) :
  heap_ext h h1 -> (forall b, h !! a = Some b -> keeps b v) ->
  heap_ext h (<[a := v]> h1).
Proof.
  intros Hext Hv x b Hb.
  destruct (Hext x b Hb) as (b1 & Hb1 & Hk1).
  destruct (Z.eq_dec a x) as [-> | Hne].
  - rewrite lookup_insert_eq.
    eexists. split; [reflexivity |]. apply Hv. exact Hb.
  - rewrite lookup_insert_ne by assumption.
    exists b1. split; assumption.
Qed.

Lemma keeps_not_mapped (b v : block_meta) :
  status v <> STATUS_MAPPED -> keeps b v.
Proof. unfold keeps. tauto. Qed.

Lemma keeps_with_size (v : Z) (b : block_meta) : keeps b (with_size v b).
Proof. unfold keeps. simpl. tauto. Qed.

Lemma keeps_with_prev (v : Z) (b : block_meta) : keeps b (with_prev v b).
Proof. unfold keeps. simpl. tauto. Qed.

Lemma keeps_with_next (v : Z) (b : block_meta) : keeps b (with_next v b).
Proof. unfold keeps. simpl. tauto. Qed.

Lemma keeps_with_status (v : block_status) (b : block_meta) :
  v <> STATUS_MAPPED -> keeps b (with_status v b).
Proof. unfold keeps. simpl. tauto. Qed.

Lemma grows_refl (s : state) : grows s s.
Proof. split; [reflexivity | apply heap_ext_refl]. Qed.

Lemma grows_trans (s1 s2 s3 : state) : grows s1 s2 -> grows s2 s3 -> grows s1 s3.
Proof.
  intros [Hm1 He1] [Hm2 He2]. split; [congruence |].
  eapply heap_ext_trans; eassumption.
Qed.

(** Coalescing keeps every header and its status. *)
Lemma same_status_heap_ext (h h' : gmap Z block_meta) :
  (forall x, same_status (h !! x) (h' !! x)) -> heap_ext h h'.
Proof.
  intros H a b Hb. specialize (H a). rewrite Hb in H.
  destruct (h' !! a) as [b' |]; [| destruct H].
  exists b'. split; [reflexivity |]. simpl in H. unfold keeps. congruence.
Qed.

Lemma same_status_is_Some (o o' : option block_meta) :
  same_status o o' -> (is_Some o <-> is_Some o').
Proof.
  destruct o, o'; simpl; intros H; try destruct H;
    split; intros [x Hx]; try discriminate; eauto.
Qed.

(** ** Outcomes *)

Lemma outcome_bind {A B : Type} (c : M A) (k : A -> M B) (s : state)
      (Q1 : A -> state -> Prop) (Q : B -> state -> Prop) (E : Prop) :
  outcome (c s) Q1 E ->
  (forall v s1, Q1 v s1 -> outcome (k v s1) Q E) ->
  outcome (bind c k s) Q E.
Proof.
  unfold bind. destruct (c s) as [v s1 | msg | |]; simpl; intros H Hk;
    [apply Hk; exact H | exact H | exact H | exact H].
Qed.

Lemma outcome_weaken {A : Type} (r : result A)
      (Q Q' : A -> state -> Prop) (E E' : Prop) :
  outcome r Q E -> (forall v s, Q v s -> Q' v s) -> (E -> E') ->
  outcome r Q' E'.
Proof. destruct r; simpl; auto. Qed.

(** ** find_best_fit *)

(** The loop of [find_best_fit] reads the list and does not change the
    state; what it selects holds the request. *)
Lemma find_best_fit_loop_spec (fuel : nat) :
  forall (s : state) (sz cur : Z) (l : list node) (best_fit best_fit_size : Z),
    lseg (heap s) cur l -> (length l < fuel)%nat ->
    fits s sz best_fit ->
    exists r,
      find_best_fit_loop fuel sz cur best_fit best_fit_size s = Ret r s /\
      fits s sz (fst r).
Proof.
  induction fuel as [| fuel IH]; intros s sz cur l bf bfs Hl Hfuel Hfits.
  - lia.
  - destruct Hl as [| a b l Ha Hb Hl].
    + cbn [find_best_fit_loop]. change (NULL =? NULL) with true. cbv iota.
      exists (bf, bfs). split; [reflexivity | exact Hfits].
    + simpl in Hfuel.
      cbn [find_best_fit_loop].
      destruct (Z.eqb_spec a NULL); [contradiction |].
      step_load. step_load. step_load.
      destruct (status_eqb (status b) STATUS_FREE && (sz <=? size b)
                && (size b <? bfs)) eqn:Ec.
      * apply andb_prop in Ec. destruct Ec as [Ec _].
        apply andb_prop in Ec. destruct Ec as [_ Ec]. zbool.
        apply (IH s sz (next b) l a (size b) Hl ltac:(lia)).
        right. split; [assumption |]. exists b. split; assumption.
      * apply (IH s sz (next b) l bf bfs Hl ltac:(lia) Hfits).
Qed.

Lemma is_Some_insert_existing (h : gmap Z block_meta) (a x : Z) (v : block_meta) :
  is_Some (h !! a) -> (is_Some (<[a := v]> h !! x) <-> is_Some (h !! x)).
Proof.
  intros Ha. destruct (Z.eq_dec a x) as [-> | Hne].
  - rewrite lookup_insert_eq. split; [intros _; exact Ha | eauto].
  - rewrite lookup_insert_ne by assumption. tauto.
Qed.

(** [find_best_fit] returns [NULL] without changing anything, or a block
    that holds the request; it writes at most the size of the block
    that [last] refers to. *)
Lemma find_best_fit_spec (fuel : nat) (s : state) (sz : Z) (l : list node) :
  block_list s l -> (length l < fuel)%nat ->
  last s <> NULL -> is_Some (heap s !! last s) -> 0 < brk s ->
  exists r s',
    find_best_fit fuel sz s = Ret r s' /\
    grows s s' /\
    (forall a, is_Some (heap s' !! a) <-> is_Some (heap s !! a)) /\
    ((r = NULL /\ s' = s) \/
     (r <> NULL /\ exists b, heap s' !! r = Some b /\ sz <= size b)).
Proof.
  intros Hl Hfuel Hlast [bl Hbl] Hbrk.
  unfold find_best_fit. step_get.
  destruct (find_best_fit_loop_spec fuel s sz (global_base s) l NULL SIZE_MAX
              Hl Hfuel ltac:(left; reflexivity)) as (r0 & Hrun & Hfits).
  rewrite (bind_Ret _ _ _ _ _ Hrun).
  step_get. step_load. step_load.
  assert (Hdone : exists r s',
    ret (A := Z) (fst r0) s = Ret r s' /\ grows s s' /\
    (forall a, is_Some (heap s' !! a) <-> is_Some (heap s !! a)) /\
    ((r = NULL /\ s' = s) \/
     (r <> NULL /\ exists b, heap s' !! r = Some b /\ sz <= size b))).
  { exists (fst r0), s. split; [reflexivity |].
    split; [apply grows_refl |]. split; [tauto |].
    destruct Hfits as [E | [Hne Hb]]; [left | right]; auto. }
  destruct (status_eqb (status bl) STATUS_FREE && (size bl <? sz)
            && (sz <? snd r0)) eqn:Ec; [| exact Hdone].
  assert (Hgrown : forall s1 : state,
    heap s1 = heap s -> mem s1 = mem s ->
    exists r s',
      (store_size (last s) sz ;;; ret (last s)) s1 = Ret r s' /\ grows s s' /\
      (forall a, is_Some (heap s' !! a) <-> is_Some (heap s !! a)) /\
      ((r = NULL /\ s' = s) \/
       (r <> NULL /\ exists b, heap s' !! r = Some b /\ sz <= size b))).
  { intros s1 Hh Hm.
    unfold store_size. rewrite bind_store by assumption. rewrite Hh.
    eexists. eexists. split; [reflexivity |]. sstate.
    split.
    - split; [sstate; exact Hm |]. sstate.
      apply heap_ext_store; [apply heap_ext_refl | apply keeps_with_size].
    - split.
      + intros a. apply is_Some_insert_existing. eauto.
      + right. split; [assumption |].
        rewrite lookup_insert_eq. eexists. split; [reflexivity |].
        simpl. lia. }
  unfold sbrk at 1. unfold bind at 1.
  destruct (to_intptr (wrap (sz - size bl)) =? 0).
  - destruct (Z.eqb_spec (brk s) MAP_FAILED); [addr_lia |].
    apply Hgrown; reflexivity.
  - destruct (brk s + to_intptr (wrap (sz - size bl)) <=? brk_limit s).
    + destruct (Z.eqb_spec (brk s) MAP_FAILED); [addr_lia |].
      apply Hgrown; reflexivity.
    + change (MAP_FAILED =? MAP_FAILED) with true. cbv iota.
      exact Hdone.
Qed.

(** ** brk_block *)

(** [brk_block] returns a new allocated block of the requested size at
    the old break, or terminates the process when the break cannot
    move. *)
Lemma brk_block_spec (s : state) (sz : Z) :
  0 < sz < 2 ^ 63 -> 0 < brk s ->
  (last s = NULL \/ is_Some (heap s !! last s)) ->
  outcome (brk_block sz s)
    (fun p s' =>
       p = brk s /\ grows s s' /\
       exists b, heap s' !! p = Some b /\ size b = sz /\ status b = STATUS_ALLOC)
    (brk_limit s < brk s + sz).
Proof.
  intros Hsz Hbrk Hlast. unfold brk_block.
  destruct (Z.leb_spec sz 0); [lia |].
  rewrite (bind_Ret _ _ _ _ _ (sbrk_zero s)).
  rewrite to_intptr_small by lia.
  destruct (Z.leb_spec (brk s + sz) (brk_limit s)) as [Hroom | Hfull].
  - rewrite (bind_Ret _ _ _ _ _ (sbrk_ok sz s ltac:(lia) Hroom)).
    rewrite Z.eqb_refl. cbn [negb]. rewrite bind_DIE_false.
    destruct (Z.eqb_spec (brk s) MAP_FAILED); [addr_lia |].
    step_store. step_store. step_get.
    destruct (Z.eqb_spec (last s) NULL) as [El | El].
    + step_store. step_store. step_modify. unfold ret.
      cbn [outcome]. split; [reflexivity |]. split.
      * split; [reflexivity |]. sstate.
        apply heap_ext_insert; [apply heap_ext_refl |].
        intros b _. apply keeps_not_mapped. simpl. discriminate.
      * sstate. rewrite lookup_insert_eq.
        eexists. split; [reflexivity |]. simpl. tauto.
    + destruct Hlast as [? | [bl Hbl]]; [contradiction |].
      step_store.
      destruct (Z.eq_dec (last s) (brk s)) as [Eq | Hne].
      * rewrite Eq in *.
        step_load. step_store. step_store. step_modify. unfold ret.
        cbn [outcome]. split; [reflexivity |]. split.
        -- split; [reflexivity |]. sstate.
           apply heap_ext_insert; [apply heap_ext_refl |].
           intros b _. apply keeps_not_mapped. simpl. discriminate.
        -- sstate. rewrite lookup_insert_eq.
           eexists. split; [reflexivity |]. simpl. tauto.
      * step_load. step_store. step_store.
        rewrite Hbl, default_Some.
        step_modify. unfold ret.
        cbn [outcome]. split; [reflexivity |]. split.
        -- split; [reflexivity |]. sstate.
           apply heap_ext_insert.
           ++ apply heap_ext_insert; [apply heap_ext_refl |].
              intros b _. apply keeps_not_mapped. simpl. discriminate.
           ++ intros b Hb. assert (b = bl) by congruence. subst b.
              apply keeps_with_next.
        -- sstate. rewrite lookup_insert_ne by assumption.
           rewrite lookup_insert_eq.
           eexists. split; [reflexivity |]. simpl. tauto.
  - rewrite (bind_Ret _ _ _ _ _ (sbrk_fail sz s ltac:(lia) Hfull)).
    destruct (Z.eqb_spec MAP_FAILED (brk s)); [addr_lia |].
    cbn [negb]. rewrite bind_DIE_true. cbn [outcome]. lia.
Qed.

(** ** split_block *)

(** The last statement of [split_block] only writes [last]. *)
Lemma split_block_update_last (block new_block : Z) (s1 : state) :
  exists s',
    (let* l := get last in
     if l =? block then modify (set_last new_block) else ret tt) s1 = Ret tt s' /\
    heap s' = heap s1 /\ mem s' = mem s1.
Proof.
  rewrite bind_get.
  destruct (last s1 =? block).
  - eexists. split; [reflexivity |]. split; reflexivity.
  - eexists. split; [reflexivity |]. split; reflexivity.
Qed.

(** [split_block] returns; the block keeps its status and either has
    the requested size afterwards, or was too small to be split. *)
Lemma split_block_spec (s : state) (block sz : Z) (b : block_meta) :
  0 < block -> 0 < sz -> heap s !! block = Some b ->
  exists s',
    split_block block sz s = Ret tt s' /\
    grows s s' /\
    exists b',
      heap s' !! block = Some b' /\ status b' = status b /\
      (size b' = sz \/
       (size b' = size b /\ wrap (size b - sz) < META_SIZE + ALIGNMENT)).
Proof.
  intros Hblock Hsz Hb. unfold split_block.
  destruct (Z.eqb_spec block NULL); [addr_lia |].
  step_load.
  destruct (Z.ltb_spec (wrap (size b - sz)) (META_SIZE + ALIGNMENT)) as [Hrem | Hrem].
  - exists s. split; [reflexivity |]. split; [apply grows_refl |].
    exists b. split; [assumption |]. split; [reflexivity |]. right. tauto.
  - step_store. step_store. step_store.
    step_load.
    step_store. step_store. step_store.
    rewrite Hb, default_Some. cbn [with_next with_size size status prev next].
    step_load.
    set (h6 := <[block := _]> _).
    assert (Hext6 : heap_ext (heap s) h6).
    { subst h6. apply heap_ext_insert.
      - apply heap_ext_insert; [apply heap_ext_refl |].
        intros b0 _. apply keeps_not_mapped. simpl. discriminate.
      - intros b0 Hb0. assert (b0 = b) by congruence. subst b0.
        unfold keeps. simpl. tauto. }
    assert (Hb6 : exists b6, h6 !! block = Some b6 /\ status b6 = status b /\ size b6 = sz).
    { subst h6. rewrite lookup_insert_eq. eexists. split; [reflexivity |].
      simpl. tauto. }
    destruct (Z.eqb_spec (next b) NULL) as [En | En].
    + step_ret.
      destruct (split_block_update_last block (block + sz)
                  (set_heap h6
                     (set_heap (<[block + sz := mk_block_meta (wrap (size b - sz)) STATUS_FREE block (next b)]> (heap s)) s)))
        as (s' & Hrun & Hh & Hm).
      exists s'. split.
      * etransitivity; [| exact Hrun]. reflexivity.
      * split; [split; [rewrite Hm; reflexivity | rewrite Hh; exact Hext6] |].
        destruct Hb6 as (b6 & Hb6 & Hst6 & Hsz6).
        exists b6. rewrite Hh. sstate. tauto.
    + rewrite ?bind_assoc.
      unfold store_prev. rewrite bind_store by assumption. sstate.
      set (h7 := <[next b := _]> h6).
      assert (Hext7 : heap_ext (heap s) h7).
      { subst h7. apply heap_ext_store; [exact Hext6 | apply keeps_with_prev]. }
      assert (Hb7 : exists b7, h7 !! block = Some b7 /\ status b7 = status b /\ size b7 = sz).
      { destruct Hb6 as (b6 & Hb6 & Hst6 & Hsz6). subst h7.
        destruct (Z.eq_dec (next b) block) as [Eq | Hne].
        - rewrite Eq. rewrite lookup_insert_eq, Hb6, default_Some.
          eexists. split; [reflexivity |]. simpl. tauto.
        - rewrite lookup_insert_ne by assumption. eauto. }
      match goal with
      | |- context [bind _ _ ?st] =>
          destruct (split_block_update_last block (block + sz) st)
            as (s' & Hrun & Hh & Hm)
      end.
      exists s'. split.
      * etransitivity; [| exact Hrun]. reflexivity.
      * split; [split; [rewrite Hm; reflexivity | rewrite Hh; exact Hext7] |].
        destruct Hb7 as (b7 & Hb7 & Hst7 & Hsz7).
        exists b7. rewrite Hh. sstate. tauto.
Qed.

(** ** os_malloc on the arena *)

Lemma mark_allocated (s : state) (block : Z) (b : block_meta) :
  block <> NULL -> heap s !! block = Some b ->
  exists s',
    (store_status block STATUS_ALLOC ;;; ret (block + META_SIZE)) s =
      Ret (block + META_SIZE) s' /\
    grows s s' /\
    heap s' !! block = Some (with_status STATUS_ALLOC b).
Proof.
  intros Hn Hb. unfold store_status. rewrite bind_store by assumption.
  rewrite Hb, default_Some.
  eexists. split; [reflexivity |]. split.
  - split; [reflexivity |]. sstate.
    apply heap_ext_insert; [apply heap_ext_refl |].
    intros b0 _. apply keeps_not_mapped. simpl. discriminate.
  - sstate. apply lookup_insert_eq.
Qed.

Lemma wrap_zero : wrap 0 = 0.
Proof. reflexivity. Qed.

(** In a well-formed arena a small request returns such a block, or the
    process is terminated because the break cannot move. *)
Lemma os_malloc_small_spec (fuel : nat) (s : state) (l : list node) (sz : Z) :
  arena_ok s l -> (length l < fuel)%nat -> small_request sz ->
  outcome (os_malloc fuel sz s)
    (fun p s' => grows s s' /\ allocated_for sz p s')
    (brk_limit s < brk s + MMAP_THRESHOLD).
Proof.
  intros (Hl & Hfit & [Hbrk Hpos] & Hlast & Hpre) Hfuel Hsmall.
  pose proof (block_size_small sz Hsmall) as [Hbs1 Hbs2].
  destruct Hsmall as [Hsz Hsz'].
  unfold os_malloc.
  change (ALIGN (wrap (sz + META_SIZE))) with (block_size sz).
  destruct (Z.leb_spec sz 0); [lia |].
  destruct (Z.leb_spec MMAP_THRESHOLD (block_size sz)); [lia |].
  step_get.
  destruct (prealloc s) eqn:Epre; cbn [negb].
  - (* the arena exists: coalesce, search, split or grow *)
    specialize (Hpre eq_refl).
    destruct Hlast as [? | Hlast]; [contradiction |].
    unfold coalesce_everywhere. step_get.
    destruct (coalesce_everywhere_loop_spec fuel fuel s (global_base s) l
                Hl Hfuel Hfuel Hfit)
      as (s1 & l1 & Hrun1 & Hohl & Hl1 & _ & _ & _ & Hlen1 & _ & Hstat & Hlast1).
    rewrite (bind_Ret _ _ _ _ _ Hrun1).
    destruct Hohl as (Hm1 & Hgb1 & _ & Hbrk1 & Hlim1 & _).
    assert (Hg1 : grows s s1).
    { split; [assumption | apply same_status_heap_ext; assumption]. }
    assert (Hdom1 : forall a, is_Some (heap s1 !! a) <-> is_Some (heap s !! a)).
    { intros a. symmetry. apply same_status_is_Some. apply Hstat. }
    assert (Hlast1' : last s1 <> NULL /\ is_Some (heap s1 !! last s1)).
    { destruct Hlast1 as [E | Hin].
      - rewrite E. split; [assumption | apply Hdom1; assumption].
      - destruct (lseg_lookup _ _ _ _ Hl Hin) as [Hn Hs].
        split; [assumption | apply Hdom1; assumption]. }
    destruct Hlast1' as [Hlast1n Hlast1s].
    destruct (find_best_fit_spec fuel s1 (block_size sz) l1)
      as (r & s2 & Hrun2 & Hg2 & Hdom2 & Hr);
      [unfold block_list; rewrite Hgb1; exact Hl1 | lia | assumption
      | assumption | lia |].
    rewrite (bind_Ret _ _ _ _ _ Hrun2).
    destruct Hr as [[-> ->] | (Hrn & b & Hb & Hbsz)].
    + (* nothing fits: a new block at the break *)
      change (negb (NULL =? NULL)) with false. cbv iota.
      eapply outcome_bind.
      * eapply outcome_weaken;
          [ apply (brk_block_spec s1 (block_size sz));
            [addr_lia | lia | right; assumption]
          | intros v s0 HQ; exact HQ
          | intros HE; rewrite Hbrk1, Hlim1 in HE; lia ].
      * intros p s3 (-> & Hg3 & b & Hb & Hbsz & Hbst).
        unfold ret. cbn [outcome]. split.
        -- eapply grows_trans; eassumption.
        -- unfold allocated_for. rewrite Z.add_simpl_r.
           split; [lia |]. exists b. rewrite Hbsz, Z.sub_diag, wrap_zero.
           split; [assumption |]. split; [assumption |].
           split; [lia | addr_lia].
    + (* a block fits *)
      assert (Hrpos : 0 < r).
      { apply Hpos. apply Hdom1. apply Hdom2. eauto. }
      destruct (Z.eqb_spec r NULL); [contradiction |]. cbn [negb].
      step_load.
      assert (Hfinish : forall s3 b3,
        grows s2 s3 -> heap s3 !! r = Some b3 ->
        block_size sz <= size b3 ->
        wrap (size b3 - block_size sz) < META_SIZE + ALIGNMENT ->
        outcome ((store_status r STATUS_ALLOC ;;; ret (r + META_SIZE)) s3)
          (fun p s' => grows s s' /\ allocated_for sz p s')
          (brk_limit s < brk s + MMAP_THRESHOLD)).
      { intros s3 b3 Hg3 Hb3 Hle3 Hrem3.
        destruct (mark_allocated s3 r b3 Hrn Hb3) as (s4 & Hrun4 & Hg4 & Hb4).
        rewrite Hrun4. cbn [outcome]. split.
        - eapply grows_trans; [exact Hg1 |].
          eapply grows_trans; [exact Hg2 |].
          eapply grows_trans; eassumption.
        - unfold allocated_for. rewrite Z.add_simpl_r.
          split; [assumption |]. eexists. split; [exact Hb4 |].
          simpl. tauto. }
      destruct (Z.ltb_spec (block_size sz) (size b)) as [Hlt | Hge].
      * destruct (split_block_spec s2 r (block_size sz) b Hrpos ltac:(addr_lia) Hb)
          as (s3 & Hrun3 & Hg3 & b3 & Hb3 & Hst3 & Hsz3).
        rewrite ?bind_assoc.
        rewrite (bind_Ret _ _ _ _ _ Hrun3).
        apply (Hfinish s3 b3 Hg3 Hb3).
        -- destruct Hsz3 as [E | [E _]]; lia.
        -- destruct Hsz3 as [E | [E Hrem]].
           ++ rewrite E, Z.sub_diag, wrap_zero. addr_lia.
           ++ rewrite E. exact Hrem.
      * step_ret.
        apply (Hfinish s2 b (grows_refl s2) Hb Hbsz).
        replace (size b) with (block_size sz) by lia.
        rewrite Z.sub_diag, wrap_zero. addr_lia.
  - (* the first small request: create the arena *)
    eapply outcome_bind.
    + apply (brk_block_spec s MMAP_THRESHOLD); [addr_lia | assumption | assumption].
    + intros p s1 (-> & Hg1 & b & Hb & Hbsz & Hbst).
      step_load. rewrite Hbsz.
      destruct (Z.ltb_spec (block_size sz) MMAP_THRESHOLD); [| lia].
      destruct (split_block_spec s1 (brk s) (block_size sz) b Hbrk ltac:(addr_lia) Hb)
        as (s2 & Hrun2 & Hg2 & b2 & Hb2 & Hst2 & Hsz2).
      rewrite ?bind_assoc.
      rewrite (bind_Ret _ _ _ _ _ Hrun2).
      step_modify. step_modify. step_modify. unfold ret. cbn [outcome].
      split.
      * eapply grows_trans; [exact Hg1 |].
        destruct Hg2 as [Hm2 He2]. split; sstate; assumption.
      * unfold allocated_for. rewrite Z.add_simpl_r.
        split; [assumption |]. exists b2. sstate.
        split; [assumption |]. split; [congruence |].
        destruct Hsz2 as [E | [E Hrem]].
        -- rewrite E, Z.sub_diag, wrap_zero. split; [lia | addr_lia].
        -- rewrite E, Hbsz. split; [lia |]. rewrite Hbsz in Hrem. exact Hrem.
Qed.

(** ** os_malloc of a large request *)

Lemma ALIGN_aligned (x : Z) :
  0 <= x -> x + 7 < 2 ^ 64 -> x mod 8 = 0 -> ALIGN x = x.
Proof.
  intros H0 H1 Hm. rewrite ALIGN_spec by assumption.
  pose proof (Z.div_mod x 8 ltac:(lia)) as Hd. rewrite Hm in Hd.
  replace (x + 7) with (x / 8 * 8 + 7) by lia.
  rewrite Z.div_add_l by lia.
  replace (7 / 8) with 0 by reflexivity. lia.
Qed.


(** * The claims *)

(** C10: for every positive new size, Resize on a pointer whose header has
    status FREE returns null and leaves the whole state, block list and
    arena variables included, as it was. *)
Theorem realloc_of_free_block_is_null
        (fuel : nat) (s : state) (ptr sz : Z) (b : block_meta) :
  0 < sz -> ptr <> NULL ->
  heap s !! (ptr - META_SIZE) = Some b -> status b = STATUS_FREE ->
  os_realloc fuel ptr sz s = Ret NULL s.
Proof.
  intros Hsz Hptr Hb Hst. unfold os_realloc.
  destruct (Z.leb_spec sz 0); [lia |].
  destruct (Z.eqb_spec ptr NULL); [contradiction |].
  destruct (Z.eqb_spec (ptr - META_SIZE) NULL); [reflexivity |].
  rewrite (bind_load _ _ _ _ b) by assumption.
  rewrite Hst. reflexivity.
Qed.

Lemma realloc_of_free_block_is_null_witness :
  os_realloc 8 1000032 8 freed_one = Ret NULL freed_one.
Proof.
  apply (realloc_of_free_block_is_null 8 freed_one 1000032 8
           {| size := 40; status := STATUS_FREE; prev := NULL; next := 1000040 |}).
  - lia.
  - discriminate.
  - vm_compute. reflexivity.
  - reflexivity.
Defined.

(** C3: the specification says that GrowArena returns "no block" when
    the heap-break primitive reports its sentinel. In the code the test
    that terminates the process comes first: the sentinel differs from
    the break read just before, so [DIE] fires and the return of [NULL]
    is never reached. *)
Theorem brk_block_dies_on_sbrk_sentinel (s : state) (sz : Z) :
  0 < sz -> brk s <> MAP_FAILED ->
  sbrk (to_intptr sz) s = Ret MAP_FAILED s ->
  brk_block sz s = Die "sbrk failed".
Proof.
  intros Hsz Hbrk Hfail. unfold brk_block.
  destruct (Z.leb_spec sz 0); [lia |].
  rewrite (bind_Ret _ _ _ _ _ (sbrk_zero s)).
  rewrite (bind_Ret _ _ _ _ _ Hfail).
  destruct (Z.eqb_spec MAP_FAILED (brk s)) as [E | E]; [congruence |].
  reflexivity.
Qed.

Lemma brk_block_dies_on_sbrk_sentinel_witness :
  brk_block 40 tight_full = Die "sbrk failed".
Proof.
  apply (brk_block_dies_on_sbrk_sentinel tight_full 40).
  - lia.
  - vm_compute. discriminate.
  - vm_compute. reflexivity.
Defined.

(** The same through the public operations: once the arena of [tight]
    is full, the next small Allocate reaches [brk_block] and the process
    is terminated. *)
Example malloc_dies_when_break_is_exhausted :
  run 8 [Malloc 8; Malloc 131000; Malloc 8] tight = Die "sbrk failed".
Proof. vm_compute. reflexivity. Qed.

(** C7: the specification says that a failed extension of the break in
    the tail-extension branch of Resize terminates the process and leaves
    the size of the block alone. The code tests the result of [sbrk] against
    [NULL], not against the sentinel [(void * )-1] that [sbrk] returns on
    failure, so [DIE] does not fire: Resize returns the same address and
    records the new size although the break did not move. *)
Theorem realloc_tail_extension_ignores_sbrk_failure
        (fuel : nat) (s : state) (ptr sz : Z) (b : block_meta) :
  small_request sz -> ptr <> NULL -> ptr - META_SIZE <> NULL ->
  heap s !! (ptr - META_SIZE) = Some b -> status b = STATUS_ALLOC ->
  0 <= size b < block_size sz ->
  last s = ptr - META_SIZE ->
  brk_limit s < brk s + (block_size sz - size b) ->
  os_realloc fuel ptr sz s =
  Ret ptr (set_heap (<[ptr - META_SIZE := with_size (block_size sz) b]> (heap s)) s).
Proof.
  intros Hsmall Hptr Hblock Hb Hst Hsize Hlast Hlimit.
  pose proof (block_size_small sz Hsmall) as [Hbs1 Hbs2].
  destruct Hsmall as [Hsz _].
  unfold os_realloc.
  change (ALIGN (wrap (sz + META_SIZE))) with (block_size sz).
  destruct (Z.leb_spec sz 0); [lia |].
  destruct (Z.eqb_spec ptr NULL); [contradiction |].
  destruct (Z.eqb_spec (ptr - META_SIZE) NULL); [contradiction |].
  rewrite (bind_load _ _ _ _ b) by assumption.
  rewrite Hst.
  destruct (Z.leb_spec MMAP_THRESHOLD (block_size sz)); [lia |].
  cbn [status_eqb orb].
  rewrite bind_ret.
  unfold os_realloc_tail.
  rewrite (bind_load _ _ _ _ b) by assumption.
  destruct (Z.leb_spec (block_size sz) (size b)); [lia |].
  rewrite bind_get, Hlast.
  rewrite Z.eqb_refl.
  rewrite (bind_load _ _ _ _ b) by assumption.
  assert (Hmiss : to_int (wrap (block_size sz - size b)) = block_size sz - size b).
  { unfold MMAP_THRESHOLD in *.
    rewrite wrap_small by lia. apply to_int_small. lia. }
  rewrite Hmiss.
  rewrite (bind_Ret _ _ _ _ _ (sbrk_fail (block_size sz - size b) s ltac:(lia) Hlimit)).
  change (MAP_FAILED =? NULL) with false.
  rewrite bind_DIE_false.
  unfold store_size. rewrite bind_store by assumption.
  rewrite Hb. reflexivity.
Qed.

Lemma realloc_tail_extension_ignores_sbrk_failure_witness :
  os_realloc 8 1000032 16 tight_one =
  Ret 1000032
      (set_heap (<[1000032 - META_SIZE :=
                   with_size (block_size 16)
                     {| size := 40; status := STATUS_ALLOC;
                        prev := NULL; next := 1000040 |}]> (heap tight_one))
                tight_one).
Proof.
  apply (realloc_tail_extension_ignores_sbrk_failure 8 tight_one 1000032 16
           {| size := 40; status := STATUS_ALLOC; prev := NULL; next := 1000040 |}).
  - unfold small_request. vm_compute. split; [reflexivity | discriminate].
  - discriminate.
  - discriminate.
  - vm_compute. reflexivity.
  - reflexivity.
  - vm_compute. split; [discriminate | reflexivity].
  - vm_compute. reflexivity.
  - vm_compute. reflexivity.
Defined.

(** C4: the specification says that after the first small Allocate
    [last] is the split-off free remainder. [split_block] does move
    [last] to the remainder, but [os_malloc] then assigns [last = block]:
    [last] ends on the returned prefix although the list continues with
    the remainder at the higher address. *)
Theorem first_malloc_leaves_last_on_prefix (fuel : nat) (s : state) (sz : Z) :
  prealloc s = false -> last s = NULL ->
  0 < brk s -> brk s + MMAP_THRESHOLD <= brk_limit s ->
  0 < sz -> sz + META_SIZE + 8 + (META_SIZE + ALIGNMENT) <= MMAP_THRESHOLD ->
  exists s',
    os_malloc fuel sz s = Ret (brk s + META_SIZE) s' /\
    global_base s' = brk s /\
    last s' = brk s /\
    heap s' !! brk s =
      Some {| size := block_size sz; status := STATUS_ALLOC;
              prev := NULL; next := brk s + block_size sz |} /\
    heap s' !! (brk s + block_size sz) =
      Some {| size := MMAP_THRESHOLD - block_size sz; status := STATUS_FREE;
              prev := brk s; next := NULL |} /\
    brk s < brk s + block_size sz.
Proof.
  intros Hpre Hlast Hbrk Hlimit Hsz Hroom.
  assert (Hsmall : small_request sz).
  { unfold small_request, META_SIZE, MMAP_THRESHOLD, ALIGNMENT in *. lia. }
  pose proof (block_size_small sz Hsmall) as [Hbs1 Hbs2].
  unfold os_malloc.
  change (ALIGN (wrap (sz + META_SIZE))) with (block_size sz).
  destruct (Z.leb_spec sz 0); [lia |].
  destruct (Z.leb_spec MMAP_THRESHOLD (block_size sz)); [lia |].
  rewrite bind_get, Hpre. cbn [negb].
  (* brk_block(MMAP_THRESHOLD) *)
  unfold brk_block.
  change (MMAP_THRESHOLD <=? 0) with false. cbv iota.
  rewrite ?bind_assoc.
  rewrite (bind_Ret _ _ _ _ _ (sbrk_zero s)).
  rewrite ?bind_assoc.
  change (to_intptr MMAP_THRESHOLD) with MMAP_THRESHOLD.
  rewrite (bind_Ret _ _ _ _ _ (sbrk_ok MMAP_THRESHOLD s ltac:(discriminate) Hlimit)).
  rewrite Z.eqb_refl. cbn [negb].
  rewrite ?bind_assoc, bind_DIE_false.
  destruct (Z.eqb_spec (brk s) MAP_FAILED) as [E | _]; [addr_lia |].
  step_store. step_store.
  step_get. rewrite Hlast.
  change (NULL =? NULL) with true. cbv iota.
  step_store. step_store.
  step_modify. step_ret.
  (* block->size > blk_size: split_block *)
  step_load.
  destruct (Z.ltb_spec (block_size sz) MMAP_THRESHOLD); [| lia].
  unfold split_block.
  destruct (Z.eqb_spec (brk s) NULL) as [E | _]; [addr_lia |].
  step_load.
  assert (Hrem : wrap (MMAP_THRESHOLD - block_size sz) = MMAP_THRESHOLD - block_size sz).
  { apply wrap_small. addr_lia. }
  rewrite Hrem.
  destruct (Z.ltb_spec (MMAP_THRESHOLD - block_size sz) (META_SIZE + ALIGNMENT));
    [addr_lia |].
  step_store. step_store. step_store.
  step_load.
  step_store. step_store. step_store.
  step_load.
  change (NULL =? NULL) with true. cbv iota.
  step_ret. step_get.
  rewrite Z.eqb_refl.
  step_modify. step_modify. step_modify. step_modify.
  eexists. split; [reflexivity |]. sstate.
  split; [reflexivity |]. split; [reflexivity |].
  split; [| split].
  - hsimpl. reflexivity.
  - hsimpl. reflexivity.
  - addr_lia.
Qed.

Lemma first_malloc_leaves_last_on_prefix_witness :
  exists s',
    os_malloc 1 8 fresh = Ret (1000000 + META_SIZE) s' /\
    global_base s' = 1000000 /\
    last s' = 1000000 /\
    heap s' !! 1000000 =
      Some {| size := block_size 8; status := STATUS_ALLOC;
              prev := NULL; next := 1000000 + block_size 8 |} /\
    heap s' !! (1000000 + block_size 8) =
      Some {| size := MMAP_THRESHOLD - block_size 8; status := STATUS_FREE;
              prev := 1000000; next := NULL |} /\
    1000000 < 1000000 + block_size 8.
Proof.
  apply (first_malloc_leaves_last_on_prefix 1 fresh 8).
  - reflexivity.
  - reflexivity.
  - reflexivity.
  - vm_compute. discriminate.
  - reflexivity.
  - vm_compute. discriminate.
Defined.

(** C1: the specification says that Resize of a mapped block, or to a
    block size that reaches the mapping threshold, returns the address of
    the fresh region. The code allocates the region, copies and releases the
    old block, but does not return there: control falls into the
    in-place branches. For the block of the first Allocate, which [last]
    refers to, the tail-extension branch then returns the old address,
    of a block that is now released, and the mapped region is lost. For
    a mapped block the next statement reads the header of the region
    that was just unmapped. *)
Theorem realloc_to_large_returns_old_address :
  let r1 := os_malloc 8 8 fresh in
  let r2 := os_realloc 8 1000032 131072 (state_after r1 fresh) in
  let m1 := os_malloc 8 200000 fresh in
  value_of r1 = Some 1000032 /\
  value_of r2 = Some 1000032 /\
  heap (state_after r2 fresh) !! 1000000 =
    Some {| size := 131104; status := STATUS_FREE; prev := NULL; next := 1000040 |} /\
  heap (state_after r2 fresh) !! 50000000 =
    Some {| size := 131104; status := STATUS_MAPPED; prev := NULL; next := NULL |} /\
  value_of m1 = Some 50000032 /\
  os_realloc 8 50000032 300000 (state_after m1 fresh) = Fault.
Proof. vm_compute. repeat split; reflexivity. Qed.

(** C2: the specification says that the tail is grown only when no free
    block of sufficient size exists. In [free_ends] the block at 1000000 is
    free and holds 104 bytes, enough for a request of 64, and yet
    [find_best_fit] moves the break by 16 bytes, grows the free tail at
    1131024 from 48 to 64 bytes and returns it: the test
    [best_fit_size > size] also holds when a larger fit was found. *)
Theorem find_best_fit_grows_tail_despite_fit :
  let r := find_best_fit 8 64 free_ends in
  heap free_ends !! 1000000 =
    Some {| size := 104; status := STATUS_FREE; prev := NULL; next := 1000104 |} /\
  last free_ends = 1131024 /\
  heap free_ends !! 1131024 =
    Some {| size := 48; status := STATUS_FREE; prev := 1000152; next := NULL |} /\
  value_of r = Some 1131024 /\
  brk (state_after r fresh) = brk free_ends + 16 /\
  heap (state_after r fresh) !! 1131024 =
    Some {| size := 64; status := STATUS_FREE; prev := 1000152; next := NULL |}.
Proof. vm_compute. repeat split; reflexivity. Qed.

(** C5: for every block list, [coalesce_everywhere] returns and leaves a
    block list in which no free block is followed by a free block and
    whose byte extent, the sum of the block sizes, is the one it had. *)
Theorem coalesce_everywhere_no_adjacent_free
        (fuel : nat) (s : state) (l : list node) :
  block_list s l -> sizes_fit l -> (length l < fuel)%nat ->
  exists s' l',
    coalesce_everywhere fuel s = Ret tt s' /\
    block_list s' l' /\
    has_adjacent_free l' = false /\
    total_size l' = total_size l.
Proof.
  intros Hl Hfit Hfuel. unfold coalesce_everywhere.
  step_get.
  destruct (coalesce_everywhere_loop_spec fuel fuel s (global_base s) l
              Hl Hfuel Hfuel Hfit)
    as (s' & l' & Hrun & Hohl & Hl' & Hadj & Htot & _).
  exists s', l'. split; [exact Hrun |].
  split; [| split; assumption].
  unfold block_list.
  destruct Hohl as (_ & Hgb & _). rewrite Hgb. exact Hl'.
Qed.

Lemma three_free_block_list : block_list three_free three_free_list.
Proof.
  unfold block_list.
  replace (global_base three_free) with 1000000 by (vm_compute; reflexivity).
  apply (lseg_cons _ 1000000
           {| size := 40; status := STATUS_FREE; prev := NULL; next := 1000040 |});
    [discriminate | vm_compute; reflexivity |].
  apply (lseg_cons _ 1000040
           {| size := 40; status := STATUS_FREE; prev := 1000000; next := 1000080 |});
    [discriminate | vm_compute; reflexivity |].
  apply (lseg_cons _ 1000080
           {| size := 130992; status := STATUS_FREE; prev := 1000040; next := NULL |});
    [discriminate | vm_compute; reflexivity |].
  apply lseg_nil.
Defined.

Lemma three_free_sizes_fit : sizes_fit three_free_list.
Proof.
  split.
  - repeat constructor; simpl; lia.
  - vm_compute. reflexivity.
Defined.

Lemma coalesce_everywhere_no_adjacent_free_witness :
  exists s' l',
    coalesce_everywhere 8 three_free = Ret tt s' /\
    block_list s' l' /\
    has_adjacent_free l' = false /\
    total_size l' = total_size three_free_list.
Proof.
  apply (coalesce_everywhere_no_adjacent_free 8 three_free three_free_list).
  - exact three_free_block_list.
  - exact three_free_sizes_fit.
  - simpl. lia.
Defined.




(** C6: the specification says that Resize to a larger size keeps the
    first [n] bytes, also when the block is relocated. In the arena left
    by an allocation of 8 bytes, one of 24 bytes and the release of the
    first, whatever the payload bytes [m] are, Resize of the second block
    (header at 1000040, 24 usable bytes at 1000072) to 32 bytes takes the
    relocation path. The Allocate it calls finds [last] on the first
    block, which is free and too small, and grows that block in place
    from 40 to 64 bytes by moving the break, although it is not the last
    block of the list: the region returned, 32 bytes at 1000032, lies
    over the header of the block that is being resized. Resize then
    copies 32 bytes, more than the 24 the old block holds, into that
    region and releases the old block through the header that the copy
    has just overwritten. The statement follows the C program up to the
    copy, the last step at which headers and payload are apart. *)
Theorem realloc_copies_over_live_header (m : Z -> Byte.byte) :
  let s := set_mem m first_released in
  let s1 := state_after (os_malloc 8 32 s) s in
  os_malloc 8 32 s = Ret 1000032 s1 /\
  os_realloc 8 1000072 32 s =
    (memcpy 1000032 1000072 32 ;;; os_free 1000072 ;;; ret 1000032) s1 /\
  last s = 1000000 /\
  heap s !! 1000000 =
    Some {| size := 40; status := STATUS_FREE; prev := NULL; next := 1000040 |} /\
  heap s1 !! 1000000 =
    Some {| size := 64; status := STATUS_ALLOC; prev := NULL; next := 1000040 |} /\
  heap s !! 1000040 =
    Some {| size := 56; status := STATUS_ALLOC; prev := 1000000; next := 1000096 |} /\
  heap s1 !! 1000040 = heap s !! 1000040 /\
  brk s1 = brk s + 24 /\
  ranges_meet 1000040 META_SIZE 1000032 24.
Proof.
  cbv zeta.
  split; [vm_compute; reflexivity |].
  split; [reflexivity |].
  split; [vm_compute; reflexivity |].
  split; [vm_compute; reflexivity |].
  split; [vm_compute; reflexivity |].
  split; [vm_compute; reflexivity |].
  split; [vm_compute; reflexivity |].
  split; [vm_compute; reflexivity |].
  unfold ranges_meet, META_SIZE. lia.
Qed.

Lemma two_alloc_arena_ok : arena_ok two_alloc two_alloc_list.
Proof.
  unfold arena_ok, block_list, sizes_fit, valid_addresses.
  split.
  { replace (global_base two_alloc) with 1000000 by (vm_compute; reflexivity).
    apply (lseg_cons _ 1000000
             {| size := 40; status := STATUS_ALLOC; prev := NULL; next := 1000040 |});
      [discriminate | vm_compute; reflexivity |].
    apply (lseg_cons _ 1000040
             {| size := 40; status := STATUS_ALLOC; prev := 1000000; next := 1000080 |});
      [discriminate | vm_compute; reflexivity |].
    apply (lseg_cons _ 1000080
             {| size := 130992; status := STATUS_FREE; prev := 1000040; next := NULL |});
      [discriminate | vm_compute; reflexivity |].
    apply lseg_nil. }
  split.
  { split; [repeat constructor; simpl; lia | vm_compute; reflexivity]. }
  split.
  { split; [vm_compute; reflexivity |].
    assert (H : map_Forall (fun a _ => 0 < a) (heap two_alloc)).
    { apply (bool_decide_unpack (map_Forall (fun a _ => 0 < a) (heap two_alloc))).
      vm_compute. exact I. }
    intros a [b Hb]. exact (H a b Hb). }
  split.
  { right. exists {| size := 40; status := STATUS_ALLOC; prev := NULL; next := 1000040 |}.
    vm_compute. reflexivity. }
  intros _. vm_compute. discriminate.
Defined.





(** * Further properties of the operations *)

(** ** find_best_fit *)

Lemma find_best_fit_loop_scan (fuel : nat) :
  forall (s : state) (sz cur : Z) (l : list node) (best_fit best_fit_size : Z),
    lseg (heap s) cur l -> (length l < fuel)%nat ->
    find_best_fit_loop fuel sz cur best_fit best_fit_size s =
    Ret (best_fit_scan sz l best_fit best_fit_size) s.
Proof.
  induction fuel as [| fuel IH]; intros s sz cur l bf bfs Hl Hfuel.
  - lia.
  - destruct Hl as [| a b l Ha Hb Hl].
    + reflexivity.
    + simpl in Hfuel. cbn [find_best_fit_loop best_fit_scan node_of nstatus nsize addr].
      destruct (Z.eqb_spec a NULL); [contradiction |].
      step_load. step_load. step_load.
      destruct (status_eqb (status b) STATUS_FREE && (sz <=? size b)
                && (size b <? bfs)).
      * apply IH; [assumption | lia].
      * apply IH; [assumption | lia].
Qed.

Lemma best_fit_scan_spec (sz : Z) (l : list node) :
  forall (bf bfs : Z),
    (best_fit_scan sz l bf bfs = (bf, bfs) /\
     forall m, In m l -> fitting sz m -> bfs <= nsize m) \/
    (exists l1 n l2,
       l = l1 ++ n :: l2 /\
       best_fit_scan sz l bf bfs = (addr n, nsize n) /\
       fitting sz n /\ nsize n < bfs /\
       (forall m, In m l1 -> fitting sz m -> nsize n < nsize m) /\
       (forall m, In m l2 -> fitting sz m -> nsize n <= nsize m)).
Proof.
  induction l as [| m l IH]; intros bf bfs.
  - left. split; [reflexivity |]. intros m [].
  - cbn [best_fit_scan].
    destruct (status_eqb (nstatus m) STATUS_FREE) eqn:Est; cbn [andb].
    + apply status_eqb_eq in Est.
      destruct (Z.leb_spec sz (nsize m)) as [Hle | Hgt]; cbn [andb].
      * destruct (Z.ltb_spec (nsize m) bfs) as [Hlt | Hge].
        -- (* [m] becomes the best fit *)
           right.
           destruct (IH (addr m) (nsize m))
             as [[E Hnone] | (l1 & n & l2 & -> & E & Hn & Hlt' & H1 & H2)].
           ++ exists [], m, l. split; [reflexivity |].
              split; [exact E |]. split; [split; assumption |].
              split; [assumption |]. split; [intros ? [] | exact Hnone].
           ++ exists (m :: l1), n, l2. split; [reflexivity |].
              split; [exact E |]. split; [assumption |].
              split; [lia |]. split; [| exact H2].
              intros m' [<- | Hin] Hfit; [lia | apply H1; assumption].
        -- destruct (IH bf bfs)
             as [[E Hnone] | (l1 & n & l2 & -> & E & Hn & Hlt' & H1 & H2)].
           ++ left. split; [exact E |].
              intros m' [<- | Hin] Hfit; [lia | apply Hnone; assumption].
           ++ right. exists (m :: l1), n, l2. split; [reflexivity |].
              split; [exact E |]. split; [assumption |].
              split; [assumption |]. split; [| exact H2].
              intros m' [<- | Hin] Hfit; [lia | apply H1; assumption].
      * destruct (IH bf bfs)
          as [[E Hnone] | (l1 & n & l2 & -> & E & Hn & Hlt' & H1 & H2)].
        -- left. split; [exact E |].
           intros m' [<- | Hin] [Hf Hs]; [lia | apply Hnone; [assumption | split; assumption]].
        -- right. exists (m :: l1), n, l2. split; [reflexivity |].
           split; [exact E |]. split; [assumption |].
           split; [assumption |]. split; [| exact H2].
           intros m' [<- | Hin] [Hf Hs]; [lia | apply H1; [assumption | split; assumption]].
    + apply status_eqb_neq in Est.
      destruct (IH bf bfs)
        as [[E Hnone] | (l1 & n & l2 & -> & E & Hn & Hlt' & H1 & H2)].
      * left. split; [exact E |].
        intros m' [<- | Hin] [Hf Hs]; [contradiction | apply Hnone; [assumption | split; assumption]].
      * right. exists (m :: l1), n, l2. split; [reflexivity |].
        split; [exact E |]. split; [assumption |].
        split; [assumption |]. split; [| exact H2].
        intros m' [<- | Hin] [Hf Hs]; [contradiction | apply H1; [assumption | split; assumption]].
Qed.

Lemma best_fit_scan_is_best_fit (sz : Z) (l : list node) :
  is_best_fit sz l (fst (best_fit_scan sz l NULL SIZE_MAX)).
Proof.
  destruct (best_fit_scan_spec sz l NULL SIZE_MAX)
    as [[E Hnone] | (l1 & n & l2 & Hl & E & Hn & Hlt & H1 & H2)]; rewrite E.
  - left. split; [reflexivity | exact Hnone].
  - right. exists l1, n, l2. cbn [fst]. tauto.
Qed.

(** When a block of exactly [sz] bytes is free, or [sz] is not below
    [SIZE_MAX], the scan ends with a size that is not above [sz]. *)
Lemma best_fit_scan_exact (sz : Z) (l : list node) :
  (exists m, In m l /\ nstatus m = STATUS_FREE /\ nsize m = sz) \/ SIZE_MAX <= sz ->
  snd (best_fit_scan sz l NULL SIZE_MAX) <= sz.
Proof.
  intros H.
  destruct (best_fit_scan_spec sz l NULL SIZE_MAX)
    as [[E Hnone] | (l1 & n & l2 & Hl & E & Hn & Hlt & H1 & H2)]; rewrite E; cbn [snd].
  - destruct H as [(m & Hin & Hf & Hs) | H]; [| exact H].
    rewrite <- Hs. apply Hnone; [assumption |]. split; [assumption | lia].
  - destruct H as [(m & Hin & Hf & Hs) | H]; [| lia].
    assert (Hfit : fitting sz m) by (split; [assumption | lia]).
    subst l. apply in_app_or in Hin. destruct Hin as [Hin | [<- | Hin]].
    + specialize (H1 m Hin Hfit). lia.
    + lia.
    + specialize (H2 m Hin Hfit). lia.
Qed.

(** When no free block has exactly [sz] bytes and [sz] is below
    [SIZE_MAX], the scan ends with a size above [sz]. *)
Lemma best_fit_scan_inexact (sz : Z) (l : list node) :
  sz < SIZE_MAX ->
  (forall m, In m l -> nstatus m = STATUS_FREE -> nsize m <> sz) ->
  sz < snd (best_fit_scan sz l NULL SIZE_MAX).
Proof.
  intros Hmax Hno.
  destruct (best_fit_scan_spec sz l NULL SIZE_MAX)
    as [[E Hnone] | (l1 & n & l2 & Hl & E & [Hf Hs] & Hlt & H1 & H2)]; rewrite E; cbn [snd].
  - exact Hmax.
  - assert (nsize n <> sz).
    { apply Hno; [| assumption]. subst l. apply in_or_app. right. left. reflexivity. }
    lia.
Qed.

(** X1: when the block that [last] refers to is not both free and
    smaller than the request, or a free block of exactly the requested
    size exists, or the request is not below [SIZE_MAX], [find_best_fit]
    changes nothing and returns the first of the smallest free blocks that
    hold the request, among those below [SIZE_MAX] bytes, or [NULL] when
    there is none. *)
Theorem find_best_fit_selects_best_fit
        (fuel : nat) (s : state) (sz : Z) (l : list node) (bl : block_meta) :
  block_list s l -> (length l < fuel)%nat ->
  last s <> NULL -> heap s !! last s = Some bl ->
  (status bl <> STATUS_FREE \/ sz <= size bl \/
   (exists m, In m l /\ nstatus m = STATUS_FREE /\ nsize m = sz) \/
   SIZE_MAX <= sz) ->
  exists r, find_best_fit fuel sz s = Ret r s /\ is_best_fit sz l r.
Proof.
  intros Hl Hfuel Hlast Hbl Hcase.
  unfold find_best_fit. step_get.
  rewrite (bind_Ret _ _ _ _ _
             (find_best_fit_loop_scan fuel s sz (global_base s) l NULL SIZE_MAX Hl Hfuel)).
  step_get. step_load. step_load.
  assert (Ec : status_eqb (status bl) STATUS_FREE && (size bl <? sz)
               && (sz <? snd (best_fit_scan sz l NULL SIZE_MAX)) = false).
  { destruct Hcase as [H | [H | H]].
    - apply status_eqb_neq in H. rewrite H. reflexivity.
    - destruct (Z.ltb_spec (size bl) sz); [lia |].
      rewrite andb_false_r. reflexivity.
    - pose proof (best_fit_scan_exact sz l H).
      destruct (Z.ltb_spec sz (snd (best_fit_scan sz l NULL SIZE_MAX))); [lia |].
      apply andb_false_r. }
  rewrite Ec.
  eexists. split; [reflexivity |]. apply best_fit_scan_is_best_fit.
Qed.

Lemma free_ends_block_list : block_list free_ends free_ends_list.
Proof.
  unfold block_list.
  replace (global_base free_ends) with 1000000 by (vm_compute; reflexivity).
  apply (lseg_cons _ 1000000
           {| size := 104; status := STATUS_FREE; prev := NULL; next := 1000104 |});
    [discriminate | vm_compute; reflexivity |].
  apply (lseg_cons _ 1000104
           {| size := 48; status := STATUS_ALLOC; prev := 1000000; next := 1000152 |});
    [discriminate | vm_compute; reflexivity |].
  apply (lseg_cons _ 1000152
           {| size := 130872; status := STATUS_ALLOC; prev := 1000104; next := 1131024 |});
    [discriminate | vm_compute; reflexivity |].
  apply (lseg_cons _ 1131024
           {| size := 48; status := STATUS_FREE; prev := 1000152; next := NULL |});
    [discriminate | vm_compute; reflexivity |].
  apply lseg_nil.
Defined.

Lemma tight_freed_block_list : block_list tight_freed tight_freed_list.
Proof.
  unfold block_list.
  replace (global_base tight_freed) with 1000000 by (vm_compute; reflexivity).
  apply (lseg_cons _ 1000000
           {| size := 40; status := STATUS_FREE; prev := NULL; next := 1000040 |});
    [discriminate | vm_compute; reflexivity |].
  apply (lseg_cons _ 1000040
           {| size := 40; status := STATUS_ALLOC; prev := 1000000; next := 1000080 |});
    [discriminate | vm_compute; reflexivity |].
  apply (lseg_cons _ 1000080
           {| size := 130992; status := STATUS_FREE; prev := 1000040; next := NULL |});
    [discriminate | vm_compute; reflexivity |].
  apply lseg_nil.
Defined.

Lemma find_best_fit_selects_best_fit_witness :
  exists r, find_best_fit 8 48 free_ends = Ret r free_ends /\
            is_best_fit 48 free_ends_list r.
Proof.
  apply (find_best_fit_selects_best_fit 8 free_ends 48 free_ends_list
           {| size := 48; status := STATUS_FREE; prev := 1000152; next := NULL |}).
  - exact free_ends_block_list.
  - simpl. lia.
  - vm_compute. discriminate.
  - vm_compute. reflexivity.
  - right. left. simpl. lia.
Defined.

(** X2: when the block that [last] refers to is free and smaller than
    the request, the request is below [SIZE_MAX], no free block of the
    list has exactly the requested size and the break can move,
    [find_best_fit] moves the break by the shortfall, sets the size of
    that block to the request and returns it, whether or not a larger
    free block would have held the request. *)
Theorem find_best_fit_grows_last
        (fuel : nat) (s : state) (sz : Z) (l : list node) (bl : block_meta) :
  block_list s l -> (length l < fuel)%nat ->
  last s <> NULL -> heap s !! last s = Some bl ->
  status bl = STATUS_FREE -> 0 <= size bl < sz -> sz < SIZE_MAX ->
  (forall m, In m l -> nstatus m = STATUS_FREE -> nsize m <> sz) ->
  brk s <> MAP_FAILED -> brk s + (sz - size bl) <= brk_limit s ->
  find_best_fit fuel sz s =
  Ret (last s)
      (set_heap (<[last s := with_size sz bl]> (heap s))
                (set_brk (brk s + (sz - size bl)) s)).
Proof.
  intros Hl Hfuel Hlast Hbl Hst Hsize Hmax Hno Hbrk Hroom.
  unfold find_best_fit. step_get.
  rewrite (bind_Ret _ _ _ _ _
             (find_best_fit_loop_scan fuel s sz (global_base s) l NULL SIZE_MAX Hl Hfuel)).
  step_get. step_load. step_load.
  rewrite Hst. cbn [status_eqb andb].
  destruct (Z.ltb_spec (size bl) sz); [| lia].
  pose proof (best_fit_scan_inexact sz l Hmax Hno).
  destruct (Z.ltb_spec sz (snd (best_fit_scan sz l NULL SIZE_MAX))); [| lia].
  cbn [andb].
  assert (Hmiss : to_intptr (wrap (sz - size bl)) = sz - size bl).
  { unfold SIZE_MAX in Hmax. rewrite wrap_small by lia.
    apply to_intptr_small. lia. }
  rewrite Hmiss.
  rewrite (bind_Ret _ _ _ _ _ (sbrk_ok (sz - size bl) s ltac:(lia) Hroom)).
  destruct (Z.eqb_spec (brk s) MAP_FAILED); [contradiction |].
  step_store. rewrite Hbl, default_Some. reflexivity.
Qed.

Lemma find_best_fit_grows_last_witness :
  find_best_fit 8 64 free_ends =
  Ret (last free_ends)
      (set_heap (<[last free_ends :=
                   with_size 64 {| size := 48; status := STATUS_FREE;
                                   prev := 1000152; next := NULL |}]>
                   (heap free_ends))
                (set_brk (brk free_ends + (64 - 48)) free_ends)).
Proof.
  apply (find_best_fit_grows_last 8 free_ends 64 free_ends_list
           {| size := 48; status := STATUS_FREE; prev := 1000152; next := NULL |}).
  - exact free_ends_block_list.
  - simpl. lia.
  - vm_compute. discriminate.
  - vm_compute. reflexivity.
  - reflexivity.
  - simpl. lia.
  - vm_compute. reflexivity.
  - intros m Hin _. simpl in Hin.
    destruct Hin as [<- | [<- | [<- | [<- | []]]]]; simpl; lia.
  - vm_compute. discriminate.
  - vm_compute. discriminate.
Defined.

(** X3: when [sbrk] refuses to move the break for the shortfall of the
    block that [last] refers to, [find_best_fit] changes nothing and
    returns what its scan selected: the failure is not fatal. *)
Theorem find_best_fit_survives_sbrk_failure
        (fuel : nat) (s : state) (sz : Z) (l : list node) (bl : block_meta) :
  block_list s l -> (length l < fuel)%nat ->
  last s <> NULL -> heap s !! last s = Some bl ->
  sbrk (to_intptr (wrap (sz - size bl))) s = Ret MAP_FAILED s ->
  exists r, find_best_fit fuel sz s = Ret r s /\ is_best_fit sz l r.
Proof.
  intros Hl Hfuel Hlast Hbl Hfail.
  unfold find_best_fit. step_get.
  rewrite (bind_Ret _ _ _ _ _
             (find_best_fit_loop_scan fuel s sz (global_base s) l NULL SIZE_MAX Hl Hfuel)).
  step_get. step_load. step_load.
  destruct (status_eqb (status bl) STATUS_FREE && (size bl <? sz)
            && (sz <? snd (best_fit_scan sz l NULL SIZE_MAX))).
  - rewrite (bind_Ret _ _ _ _ _ Hfail).
    change (MAP_FAILED =? MAP_FAILED) with true. cbv iota.
    eexists. split; [reflexivity |]. apply best_fit_scan_is_best_fit.
  - eexists. split; [reflexivity |]. apply best_fit_scan_is_best_fit.
Qed.

Lemma find_best_fit_survives_sbrk_failure_witness :
  exists r, find_best_fit 8 48 tight_freed = Ret r tight_freed /\
            is_best_fit 48 tight_freed_list r.
Proof.
  apply (find_best_fit_survives_sbrk_failure 8 tight_freed 48 tight_freed_list
           {| size := 40; status := STATUS_FREE; prev := NULL; next := 1000040 |}).
  - exact tight_freed_block_list.
  - simpl. lia.
  - vm_compute. discriminate.
  - vm_compute. reflexivity.
  - vm_compute. reflexivity.
Defined.

(** ** Changing a block in the middle of the list *)

Lemma lseg_app_tail (h : gmap Z block_meta) (l1 l2 : list node) :
  forall a, lseg h a (l1 ++ l2) -> lseg h (head_addr l2) l2.
Proof.
  induction l1 as [| m l1 IH]; intros a Hl.
  - simpl in Hl. rewrite <- (lseg_head _ _ _ Hl). exact Hl.
  - simpl in Hl. inversion Hl; subst. eapply IH. eassumption.
Qed.

Lemma lseg_middle (h h' : gmap Z block_meta) (l1 : list node) :
  forall (a : Z) (n : node) (l2 L' : list node),
    lseg h a (l1 ++ n :: l2) ->
    (forall x, In x (map addr l1) -> same_block (h !! x) (h' !! x)) ->
    lseg h' (addr n) L' ->
    lseg h' a (l1 ++ L').
Proof.
  induction l1 as [| m l1 IH]; intros a n l2 L' Hl Hsame HL'.
  - simpl in *. rewrite (lseg_head _ _ _ Hl). exact HL'.
  - simpl in Hl. inversion Hl as [| a' b l' Ha Hb Hl' Ea El]; subst.
    pose proof (Hsame a (or_introl eq_refl)) as Hx.
    rewrite Hb in Hx. destruct (h' !! a) as [b' |] eqn:Hb'; [| destruct Hx].
    simpl in Hx. destruct Hx as (Hs & Hst & Hn).
    simpl. replace (node_of a b) with (node_of a b')
      by (unfold node_of; congruence).
    constructor; [assumption | assumption |].
    rewrite <- Hn. eapply IH; [eassumption | | eassumption].
    intros x Hin. apply Hsame. right. exact Hin.
Qed.

(** The blocks around a block of the list are other blocks. *)
Lemma lseg_middle_fresh (h : gmap Z block_meta) (a : Z) (l1 l2 : list node) (n : node) :
  lseg h a (l1 ++ n :: l2) ->
  ~ In (addr n) (map addr l1) /\ ~ In (addr n) (map addr l2).
Proof.
  intros Hl. pose proof (lseg_NoDup _ _ _ Hl) as Hnd.
  rewrite map_app in Hnd. cbn [map] in Hnd.
  apply NoDup_app in Hnd. destruct Hnd as (_ & Hdisj & Hnd2).
  apply NoDup_cons in Hnd2. destruct Hnd2 as [Hn2 _].
  split.
  - intros Hin. apply list_elem_of_In in Hin.
    apply (Hdisj _ Hin). left.
  - intros Hin. apply Hn2. apply list_elem_of_In. exact Hin.
Qed.

Lemma lseg_middle_inv (h : gmap Z block_meta) (a block : Z) (b : block_meta)
      (l1 l2 : list node) (n : node) :
  lseg h a (l1 ++ n :: l2) -> addr n = block -> h !! block = Some b ->
  block <> NULL /\ n = node_of block b /\ lseg h (next b) l2.
Proof.
  intros Hl Hn Hb.
  pose proof (lseg_app_tail _ _ _ _ Hl) as Ht. cbn [head_addr] in Ht.
  rewrite Hn in Ht.
  inversion Ht as [| a' b' l' Ha Hb' Hl' Ea El]; subst.
  assert (b' = b) by congruence. subst b'. auto.
Qed.

Lemma in_map_addr_middle (x : Z) (l1 l2 : list node) (n : node) :
  In x (map addr (l1 ++ n :: l2)) <->
  In x (map addr l1) \/ x = addr n \/ In x (map addr l2).
Proof.
  rewrite map_app, in_app_iff. cbn [map In]. intuition congruence.
Qed.

(** ** split_block *)


Lemma lseg_next_cases (h : gmap Z block_meta) (a : Z) (l : list node) :
  lseg h a l ->
  (a = NULL \/ is_Some (h !! a)) /\
  (a <> NULL -> In a (map addr l)).
Proof.
  intros Hl. destruct Hl as [| a b l Ha Hb Hl].
  - split; [left; reflexivity | intros H; contradiction].
  - split; [right; eauto | intros _; simpl; left; reflexivity].
Qed.

(** *** Blocks that do not overlap *)







(** ** brk_block *)

(** X5: when the break can move, [brk_block] returns the old break as a
    new allocated block of the requested size, moves the break by that
    size, links the new block into the list right after the block that
    [last] refers to, wherever that block is in the list, and makes
    [last] refer to the new block. *)
Theorem brk_block_links_after_last
        (s : state) (sz : Z) (bl : block_meta) (l1 l2 : list node) :
  block_list s (l1 ++ node_of (last s) bl :: l2) ->
  heap s !! last s = Some bl ->
  0 < sz < 2 ^ 63 -> 0 < brk s -> brk s + sz <= brk_limit s ->
  ~ In (brk s) (map addr (l1 ++ node_of (last s) bl :: l2)) ->
  exists s',
    brk_block sz s = Ret (brk s) s' /\
    block_list s' (l1 ++ node_of (last s) bl
                      :: mk_node (brk s) sz STATUS_ALLOC :: l2) /\
    last s' = brk s /\ brk s' = brk s + sz /\ mem s' = mem s.
Proof.
  intros Hl Hbl Hsz Hbrk Hroom Hfresh. unfold block_list in *.
  destruct (lseg_middle_inv _ _ (last s) bl _ _ _ Hl eq_refl Hbl) as (Hlast & _ & Hl2).
  destruct (lseg_middle_fresh _ _ _ _ _ Hl) as [Hf1 Hf2].
  cbn [node_of addr] in Hf1, Hf2.
  rewrite in_map_addr_middle in Hfresh. cbn [node_of addr] in Hfresh.
  assert (Hne : last s <> brk s) by (intros E; apply Hfresh; right; left; congruence).
  unfold brk_block.
  destruct (Z.leb_spec sz 0); [lia |].
  rewrite (bind_Ret _ _ _ _ _ (sbrk_zero s)).
  rewrite to_intptr_small by lia.
  rewrite (bind_Ret _ _ _ _ _ (sbrk_ok sz s ltac:(lia) Hroom)).
  rewrite Z.eqb_refl. cbn [negb]. rewrite bind_DIE_false.
  destruct (Z.eqb_spec (brk s) MAP_FAILED); [addr_lia |].
  step_store. step_store. step_get.
  destruct (Z.eqb_spec (last s) NULL); [contradiction |].
  step_store. step_load. step_store. step_store.
  rewrite Hbl, default_Some.
  step_modify. unfold ret.
  eexists. split; [reflexivity |]. sstate.
  split; [| repeat split].
  eapply lseg_middle; [exact Hl | |].
  - intros x Hin.
    rewrite !lookup_insert_ne; [apply same_block_refl | |].
    + intros E. subst x. apply Hfresh. left. exact Hin.
    + intros E. subst x. contradiction.
  - cbn [node_of addr].
    change (node_of (last s) bl) with (node_of (last s) (with_next (brk s) bl)).
    apply lseg_cons; [assumption | apply lookup_insert_eq |].
    cbn [with_next next].
    apply (lseg_cons _ (brk s)
             (mk_block_meta sz STATUS_ALLOC (last s) (next bl)));
      [addr_lia | rewrite lookup_insert_ne by assumption; apply lookup_insert_eq |].
    cbn [next].
    eapply lseg_ext; [exact Hl2 |].
    intros x Hin.
    rewrite !lookup_insert_ne; [apply same_block_refl | |].
    + intros E. subst x. apply Hfresh. right. right. exact Hin.
    + intros E. subst x. contradiction.
Qed.

Lemma brk_block_links_after_last_witness :
  exists s',
    brk_block 48 two_alloc = Ret (brk two_alloc) s' /\
    block_list s'
      ([] ++ node_of (last two_alloc)
                {| size := 40; status := STATUS_ALLOC; prev := NULL; next := 1000040 |}
          :: mk_node (brk two_alloc) 48 STATUS_ALLOC
          :: [mk_node 1000040 40 STATUS_ALLOC; mk_node 1000080 130992 STATUS_FREE]) /\
    last s' = brk two_alloc /\ brk s' = brk two_alloc + 48 /\
    mem s' = mem two_alloc.
Proof.
  apply (brk_block_links_after_last two_alloc 48
           {| size := 40; status := STATUS_ALLOC; prev := NULL; next := 1000040 |}
           [] [mk_node 1000040 40 STATUS_ALLOC; mk_node 1000080 130992 STATUS_FREE]).
  - exact (proj1 two_alloc_arena_ok).
  - vm_compute. reflexivity.
  - lia.
  - vm_compute. reflexivity.
  - vm_compute. discriminate.
  - vm_compute. intros [H | [H | [H | []]]]; discriminate.
Defined.

(** ** os_free *)

(** X6: releasing an allocated block of the list only writes its status:
    the list has the same blocks with the same sizes, the released block
    is free and is not merged with a free neighbour, and the globals, the
    break and the payload bytes are as they were. Releasing the same
    address again changes nothing. *)
Theorem os_free_marks_block_free
        (s : state) (ptr : Z) (b : block_meta) (l1 l2 : list node) :
  ptr <> NULL ->
  block_list s (l1 ++ node_of (ptr - META_SIZE) b :: l2) ->
  heap s !! (ptr - META_SIZE) = Some b -> status b = STATUS_ALLOC ->
  let s' := set_heap (<[ptr - META_SIZE := with_status STATUS_FREE b]> (heap s)) s in
  os_free ptr s = Ret tt s' /\
  block_list s' (l1 ++ mk_node (ptr - META_SIZE) (size b) STATUS_FREE :: l2) /\
  os_free ptr s' = Ret tt s'.
Proof.
  intros Hptr Hl Hb Hst s'. unfold block_list in *.
  destruct (lseg_middle_inv _ _ (ptr - META_SIZE) b _ _ _ Hl eq_refl Hb)
    as (Hblock & _ & Hl2).
  destruct (lseg_middle_fresh _ _ _ _ _ Hl) as [Hf1 Hf2].
  cbn [node_of addr] in Hf1, Hf2.
  split; [| split].
  - unfold os_free.
    destruct (Z.eqb_spec ptr NULL); [contradiction |].
    step_load. rewrite Hst. cbn [status_eqb].
    unfold store_status. rewrite store_Ret by assumption.
    rewrite Hb, default_Some. reflexivity.
  - subst s'. sstate.
    eapply lseg_middle; [exact Hl | |].
    + intros x Hin. rewrite lookup_insert_ne; [apply same_block_refl |].
      intros E. subst x. contradiction.
    + cbn [node_of addr].
      change (mk_node (ptr - META_SIZE) (size b) STATUS_FREE)
        with (node_of (ptr - META_SIZE) (with_status STATUS_FREE b)).
      apply lseg_cons; [assumption | apply lookup_insert_eq |].
      cbn [with_status next].
      eapply lseg_ext; [exact Hl2 |].
      intros x Hin. rewrite lookup_insert_ne; [apply same_block_refl |].
      intros E. subst x. contradiction.
  - unfold os_free.
    destruct (Z.eqb_spec ptr NULL); [contradiction |].
    erewrite bind_load; [| assumption | subst s'; sstate; apply lookup_insert_eq].
    reflexivity.
Qed.

Lemma os_free_marks_block_free_witness :
  let b := {| size := 40; status := STATUS_ALLOC; prev := 1000000; next := 1000080 |} in
  let s' := set_heap (<[1000072 - META_SIZE := with_status STATUS_FREE b]>
                        (heap two_alloc)) two_alloc in
  os_free 1000072 two_alloc = Ret tt s' /\
  block_list s' ([mk_node 1000000 40 STATUS_ALLOC]
                   ++ mk_node (1000072 - META_SIZE) (size b) STATUS_FREE
                   :: [mk_node 1000080 130992 STATUS_FREE]) /\
  os_free 1000072 s' = Ret tt s'.
Proof.
  apply (os_free_marks_block_free two_alloc 1000072
           {| size := 40; status := STATUS_ALLOC; prev := 1000000; next := 1000080 |}
           [mk_node 1000000 40 STATUS_ALLOC]
           [mk_node 1000080 130992 STATUS_FREE]).
  - discriminate.
  - exact (proj1 two_alloc_arena_ok).
  - vm_compute. reflexivity.
  - reflexivity.
Defined.

(** ** Mapped regions *)

(** What [os_malloc] does for a request whose block size reaches the
    mapping threshold, when [mmap] returns the address [a]. *)
Lemma os_malloc_large_run (fuel : nat) (s : state) (sz a : Z) (pool : list Z) :
  0 < sz -> MMAP_THRESHOLD <= block_size sz ->
  mmap_pool s = a :: pool -> 0 < a ->
  exists s1,
    os_malloc fuel sz s = Ret (a + META_SIZE) s1 /\
    heap s1 =
      <[a := with_size (block_size sz)
               (with_status STATUS_MAPPED (default zero_meta (heap s !! a)))]>
        (heap s) /\
    global_base s1 = global_base s /\ last s1 = last s /\
    prealloc s1 = prealloc s /\ brk s1 = brk s /\ brk_limit s1 = brk_limit s /\
    mmap_pool s1 = pool.
Proof.
  intros Hsz Hlarge Hpool Ha. unfold os_malloc.
  change (ALIGN (wrap (sz + META_SIZE))) with (block_size sz).
  destruct (Z.leb_spec sz 0); [lia |].
  destruct (Z.leb_spec MMAP_THRESHOLD (block_size sz)); [| lia].
  unfold mmap at 1. unfold bind at 1. rewrite Hpool.
  destruct (Z.eqb_spec a MAP_FAILED); [addr_lia |].
  destruct (Z.eqb_spec a MAP_FAILED); [addr_lia |].
  rewrite bind_DIE_false.
  destruct (Z.eqb_spec a NULL); [addr_lia |].
  step_store. step_store. unfold ret.
  eexists. split; [reflexivity |]. sstate. repeat split; reflexivity.
Qed.

(** X7: a request whose block size reaches the mapping threshold is
    served by [mmap] alone: the returned address is the mapped address
    plus the header size, the header there is a mapped block of the block
    size, and releasing the address unmaps it and leaves the headers, the
    arena variables and the break exactly as before the allocation. *)
Theorem os_malloc_large_then_free
        (fuel : nat) (s : state) (sz a : Z) (pool : list Z) :
  0 < sz -> MMAP_THRESHOLD <= block_size sz ->
  mmap_pool s = a :: pool -> 0 < a -> heap s !! a = None ->
  exists s1 s2,
    os_malloc fuel sz s = Ret (a + META_SIZE) s1 /\
    heap s1 = <[a := mk_block_meta (block_size sz) STATUS_MAPPED NULL NULL]> (heap s) /\
    os_free (a + META_SIZE) s1 = Ret tt s2 /\
    heap s2 = heap s /\ global_base s2 = global_base s /\ last s2 = last s /\
    prealloc s2 = prealloc s /\ brk s2 = brk s.
Proof.
  intros Hsz Hlarge Hpool Ha Hnone.
  destruct (os_malloc_large_run fuel s sz a pool Hsz Hlarge Hpool Ha)
    as (s1 & Hrun & Hh & Hgb & Hl & Hp & Hb & _).
  rewrite Hnone in Hh. unfold zero_meta, with_size, with_status in Hh.
  cbn [default size status prev next] in Hh.
  assert (Hfree : exists s2,
    os_free (a + META_SIZE) s1 = Ret tt s2 /\
    s2 = set_heap (delete a (heap s1)) s1).
  { unfold os_free.
    destruct (Z.eqb_spec (a + META_SIZE) NULL); [addr_lia |].
    rewrite Z.add_simpl_r.
    erewrite bind_load; [| addr_lia | rewrite Hh; apply lookup_insert_eq].
    cbn [status status_eqb].
    erewrite bind_load; [| addr_lia | rewrite Hh; apply lookup_insert_eq].
    cbn [size]. unfold munmap at 1. unfold bind at 1.
    destruct (Z.leb_spec (block_size sz) 0); [addr_lia |].
    change (0 <? 0) with false.
    eexists. split; reflexivity. }
  destruct Hfree as (s2 & Hrun2 & ->).
  exists s1, (set_heap (delete a (heap s1)) s1).
  split; [exact Hrun |]. split; [exact Hh |]. split; [exact Hrun2 |].
  sstate. split; [| tauto].
  rewrite Hh. apply delete_insert_id. exact Hnone.
Qed.

Lemma os_malloc_large_then_free_witness :
  exists s1 s2,
    os_malloc 8 200000 fresh = Ret (50000000 + META_SIZE) s1 /\
    heap s1 = <[50000000 := mk_block_meta (block_size 200000) STATUS_MAPPED NULL NULL]>
                (heap fresh) /\
    os_free (50000000 + META_SIZE) s1 = Ret tt s2 /\
    heap s2 = heap fresh /\ global_base s2 = global_base fresh /\
    last s2 = last fresh /\ prealloc s2 = prealloc fresh /\ brk s2 = brk fresh.
Proof.
  apply (os_malloc_large_then_free 8 fresh 200000 50000000 [60000000]).
  - lia.
  - vm_compute. discriminate.
  - reflexivity.
  - lia.
  - reflexivity.
Defined.

(** X8: Resize of a mapped block to a size whose block size reaches the
    mapping threshold never returns: after the new region is mapped and
    the old one is copied and unmapped, the code goes on to read the
    size in the header of the region it has just unmapped. *)
Theorem os_realloc_mapped_reads_unmapped_header
        (fuel : nat) (s : state) (ptr sz a : Z) (pool : list Z) (b : block_meta) :
  ptr <> NULL -> ptr - META_SIZE <> NULL ->
  heap s !! (ptr - META_SIZE) = Some b -> status b = STATUS_MAPPED -> 0 < size b ->
  0 < sz -> MMAP_THRESHOLD <= block_size sz ->
  mmap_pool s = a :: pool -> 0 < a -> a <> ptr - META_SIZE ->
  os_realloc fuel ptr sz s = Fault.
Proof.
  intros Hptr Hblock Hb Hst Hsize Hsz Hlarge Hpool Ha Hne.
  destruct (os_malloc_large_run fuel s sz a pool Hsz Hlarge Hpool Ha)
    as (s1 & Hrun & Hh & _).
  assert (Hb1 : heap s1 !! (ptr - META_SIZE) = Some b).
  { rewrite Hh. rewrite lookup_insert_ne by assumption. exact Hb. }
  unfold os_realloc.
  change (ALIGN (wrap (sz + META_SIZE))) with (block_size sz).
  destruct (Z.leb_spec sz 0); [lia |].
  destruct (Z.eqb_spec ptr NULL); [contradiction |].
  destruct (Z.eqb_spec (ptr - META_SIZE) NULL); [contradiction |].
  step_load. rewrite Hst. cbn [status_eqb orb].
  rewrite ?bind_assoc. rewrite (bind_Ret _ _ _ _ _ Hrun).
  destruct (Z.eqb_spec (a + META_SIZE) NULL); [addr_lia |].
  rewrite ?bind_assoc, bind_DIE_false.
  rewrite ?bind_assoc. erewrite bind_load; [| assumption | exact Hb1].
  unfold memcpy. step_modify.
  unfold os_free.
  destruct (Z.eqb_spec ptr NULL); [contradiction |].
  rewrite ?bind_assoc. erewrite bind_load; [| assumption | sstate; exact Hb1].
  rewrite Hst. cbn [status_eqb].
  rewrite ?bind_assoc. erewrite bind_load; [| assumption | sstate; exact Hb1].
  unfold munmap at 1. rewrite ?bind_assoc. unfold bind at 1.
  destruct (Z.leb_spec (size b) 0); [lia |].
  change (0 <? 0) with false. rewrite bind_DIE_false.
  unfold os_realloc_tail. unfold bind at 1. unfold load.
  destruct (Z.eqb_spec (ptr - META_SIZE) NULL); [contradiction |].
  sstate. rewrite lookup_delete_eq. reflexivity.
Qed.

Lemma os_realloc_mapped_reads_unmapped_header_witness :
  os_realloc 8 50000032 300000 one_mapped = Fault.
Proof.
  apply (os_realloc_mapped_reads_unmapped_header 8 one_mapped 50000032 300000
           60000000 []
           {| size := 200032; status := STATUS_MAPPED; prev := NULL; next := NULL |}).
  - discriminate.
  - discriminate.
  - vm_compute. reflexivity.
  - reflexivity.
  - reflexivity.
  - lia.
  - vm_compute. discriminate.
  - vm_compute. reflexivity.
  - lia.
  - discriminate.
Defined.

(** ** os_realloc in place *)



(** ** coalesce_blocks *)

(** One round of the loop of [coalesce_blocks]: the free block [n] that
    follows [block] is absorbed. *)
Lemma coalesce_loop_round (fuel : nat) (s : state) (block : Z) (b bn : block_meta) :
  block <> NULL -> heap s !! block = Some b ->
  next b <> NULL -> next b <> block -> heap s !! next b = Some bn ->
  status bn = STATUS_FREE -> next bn <> block ->
  (next bn = NULL \/ is_Some (heap s !! next bn)) ->
  0 <= size b + size bn < 2 ^ 64 ->
  exists s1,
    coalesce_loop (S fuel) block s = coalesce_loop fuel block s1 /\
    only_heap_and_last s s1 /\
    heap s1 !! block =
      Some (mk_block_meta (size b + size bn) (status b) (prev b) (next bn)) /\
    (forall x, x <> block -> same_block (heap s !! x) (heap s1 !! x)) /\
    last s1 = (if next bn =? NULL then block else last s).
Proof.
  intros Hblock Hb Hn Hnb Hbn Hf Hnb' Hnext Hsum.
  cbn [coalesce_loop]. step_load.
  destruct (Z.eqb_spec (next b) NULL); [contradiction |].
  step_load. rewrite Hf. cbn [status_eqb].
  step_load. step_load.
  rewrite wrap_small by lia.
  step_store. rewrite Hb, default_Some.
  cbn [with_size size status prev next].
  step_load. step_load.
  step_store.
  step_load.
  destruct (Z.eqb_spec (next bn) NULL) as [E | E].
  - step_modify.
    eexists. split; [reflexivity |]. sstate.
    split; [unfold only_heap_and_last; sstate; tauto |].
    split; [hsimpl; reflexivity |].
    split; [| reflexivity].
    intros x Hx. rewrite lookup_insert_ne by congruence.
    apply same_block_refl.
  - destruct Hnext as [? | [bnn Hbnn]]; [contradiction |].
    step_store.
    eexists. split; [reflexivity |]. sstate.
    split; [unfold only_heap_and_last; sstate; tauto |].
    split; [rewrite lookup_insert_ne by congruence; hsimpl; reflexivity |].
    split; [| reflexivity].
    intros x Hx.
    destruct (Z.eq_dec x (next bn)) as [-> | Hxn].
    + rewrite lookup_insert_eq, Hbnn, default_Some. simpl. tauto.
    + rewrite !lookup_insert_ne by congruence.
      apply same_block_refl.
Qed.

(** The loop of [coalesce_blocks] with what it does to [last]: [last]
    is moved to [block] exactly when a block was absorbed and the list
    ends after the absorbed blocks. *)
Lemma coalesce_loop_run (fs : list node) :
  forall (fuel : nat) (s : state) (block : Z) (b : block_meta) (rest : list node),
    block <> NULL -> heap s !! block = Some b ->
    lseg (heap s) (next b) (fs ++ rest) ->
    Forall (fun n => nstatus n = STATUS_FREE) fs ->
    head_not_free rest ->
    ~ In block (map addr (fs ++ rest)) ->
    (length fs < fuel)%nat ->
    0 <= size b -> Forall (fun n => 0 <= nsize n) fs ->
    size b + total_size fs < 2 ^ 64 ->
    exists s',
      coalesce_loop fuel block s = Ret tt s' /\
      only_heap_and_last s s' /\
      heap s' !! block =
        Some (mk_block_meta (size b + total_size fs) (status b) (prev b) (head_addr rest)) /\
      lseg (heap s') (head_addr rest) rest /\
      last s' = match fs, rest with
                | _ :: _, [] => block
                | _, _ => last s
                end.
Proof.
  induction fs as [| f fs IH];
    intros fuel s block b rest Hblock Hb Hl Hfree Hrest Hfresh Hfuel Hsz Hszs Hsum.
  - destruct (coalesce_loop_spec [] fuel s block b rest Hblock Hb Hl Hfree Hrest
                Hfresh Hfuel Hsz Hszs Hsum)
      as (s' & Hrun & Hohl & Hb' & Hrest' & _ & _).
    assert (s' = s).
    { simpl in Hl. destruct fuel as [| fuel]; [simpl in Hfuel; lia |].
      pose proof (lseg_head _ _ _ Hl) as Hnext.
      revert Hrun. cbn [coalesce_loop]. step_load. rewrite Hnext.
      destruct rest as [| r rest].
      - intros H. inversion H. reflexivity.
      - inversion Hl as [| a br l' Ha Hbr Hl' Ea El]; subst.
        cbn [head_addr node_of addr].
        destruct (Z.eqb_spec (next b) NULL); [contradiction |].
        step_load.
        simpl in Hrest. apply status_eqb_neq in Hrest. rewrite Hrest.
        intros H. inversion H. reflexivity. }
    subst s'. exists s. tauto.
  - destruct fuel as [| fuel]; [simpl in Hfuel; lia |].
    simpl in Hl.
    inversion Hl as [| n bn l' Hn Hbn Hl' En El]; subst. clear Hl.
    inversion Hfree as [| ? ? Hf Hfree']; subst. clear Hfree.
    inversion Hszs as [| ? ? Hfs Hszs']; subst. clear Hszs.
    cbn [node_of nstatus nsize] in Hf, Hfs.
    cbn [total_size node_of nsize] in Hsum.
    pose proof (total_size_nonneg fs Hszs') as Htot.
    assert (Hnb : next b <> block).
    { intros E. apply Hfresh. simpl. left. exact E. }
    assert (Hfresh' : ~ In block (map addr (fs ++ rest))).
    { intros Hin. apply Hfresh. simpl. right. exact Hin. }
    destruct (lseg_next_cases _ _ _ Hl') as [Hnext Hin'].
    assert (Hnb' : next bn <> block).
    { intros E. destruct (Z.eq_dec (next bn) NULL) as [E0 | E0]; [congruence |].
      apply Hfresh'. rewrite <- E. apply Hin'. exact E0. }
    destruct (coalesce_loop_round fuel s block b bn Hblock Hb Hn Hnb Hbn Hf Hnb'
                Hnext ltac:(lia))
      as (s1 & Hstep & Hohl1 & Hb1 & Hframe1 & Hlast1).
    assert (Hl1 : lseg (heap s1) (next bn) (fs ++ rest)).
    { eapply lseg_ext; [exact Hl' |].
      intros x Hin. apply Hframe1. intros E. subst x. contradiction. }
    destruct (IH fuel s1 block
                 (mk_block_meta (size b + size bn) (status b) (prev b) (next bn))
                 rest Hblock Hb1 Hl1 Hfree' Hrest Hfresh'
                 ltac:(simpl in Hfuel; lia) ltac:(simpl; lia) Hszs'
                 ltac:(simpl; lia))
      as (s' & Hrun & Hohl & Hb' & Hrest' & Hlast).
    exists s'. split; [rewrite Hstep; exact Hrun |].
    split; [eapply only_heap_and_last_trans; eassumption |].
    split; [| split; [assumption |]].
    + rewrite Hb'. cbn [size status prev total_size node_of nsize].
      f_equal. f_equal. lia.
    + rewrite Hlast, Hlast1.
      pose proof (lseg_head _ _ _ Hl') as Hnn.
      destruct fs as [| f' fs], rest as [| r rest]; cbn [app head_addr] in Hnn.
      * rewrite Hnn. reflexivity.
      * destruct (Z.eqb_spec (next bn) NULL) as [E0 | _]; [| reflexivity].
        inversion Hl'; subst; congruence.
      * reflexivity.
      * destruct (Z.eqb_spec (next bn) NULL) as [E0 | _]; [| reflexivity].
        inversion Hl'; subst; congruence.
Qed.

(** X10: [coalesce_blocks] on a free block of the list absorbs the free
    blocks that follow it up to the first block in use or the end of the
    list: the block gets the sum of the sizes, the list goes on after the
    absorbed blocks, and [last] is moved to the block exactly when blocks
    were absorbed up to the end of the list. *)
Theorem coalesce_blocks_absorbs_free_run
        (fuel : nat) (s : state) (block : Z) (b : block_meta) (fs rest : list node) :
  lseg (heap s) block (node_of block b :: fs ++ rest) ->
  heap s !! block = Some b -> status b = STATUS_FREE ->
  Forall (fun n => nstatus n = STATUS_FREE) fs -> head_not_free rest ->
  sizes_fit (node_of block b :: fs) -> (length fs < fuel)%nat ->
  exists s',
    coalesce_blocks fuel block s = Ret tt s' /\
    lseg (heap s') block
         (mk_node block (size b + total_size fs) STATUS_FREE :: rest) /\
    last s' = match fs, rest with
              | _ :: _, [] => block
              | _, _ => last s
              end /\
    brk s' = brk s /\ mem s' = mem s.
Proof.
  intros Hl Hb Hst Hfs Hrest [Hnn Hsum] Hfuel.
  inversion Hl as [| a b' l' Ha Hb' Hl' Ea El]; subst.
  assert (b' = b) by congruence. subst b'.
  pose proof (lseg_head_fresh _ _ _ _ Ha Hb Hl') as Hfresh.
  inversion Hnn as [| ? ? Hsz Hnn']; subst.
  cbn [node_of nsize] in Hsz. cbn [total_size node_of nsize] in Hsum.
  destruct (coalesce_loop_run fs fuel s block b rest Ha Hb Hl' Hfs Hrest Hfresh
              Hfuel Hsz Hnn' Hsum)
    as (s' & Hrun & Hohl & Hb1 & Hrest' & Hlast).
  exists s'. split.
  - unfold coalesce_blocks.
    destruct (Z.eqb_spec block NULL); [contradiction |].
    step_load. rewrite Hst. cbn [status_eqb negb]. exact Hrun.
  - split.
    + change (mk_node block (size b + total_size fs) STATUS_FREE)
        with (node_of block
                (mk_block_meta (size b + total_size fs) STATUS_FREE (prev b)
                               (head_addr rest))).
      rewrite Hst in Hb1.
      apply lseg_cons; [assumption | exact Hb1 | exact Hrest'].
    + destruct Hohl as (Hm & _ & _ & Hbrk & _). tauto.
Qed.

Lemma coalesce_blocks_absorbs_free_run_witness :
  exists s',
    coalesce_blocks 8 1000000 three_free = Ret tt s' /\
    lseg (heap s') 1000000
         (mk_node 1000000
                  (40 + total_size [mk_node 1000040 40 STATUS_FREE;
                                    mk_node 1000080 130992 STATUS_FREE])
                  STATUS_FREE :: []) /\
    last s' = 1000000 /\
    brk s' = brk three_free /\ mem s' = mem three_free.
Proof.
  apply (coalesce_blocks_absorbs_free_run 8 three_free 1000000
           {| size := 40; status := STATUS_FREE; prev := NULL; next := 1000040 |}
           [mk_node 1000040 40 STATUS_FREE; mk_node 1000080 130992 STATUS_FREE] []).
  - exact three_free_block_list.
  - vm_compute. reflexivity.
  - reflexivity.
  - repeat constructor.
  - exact I.
  - split; [repeat constructor; simpl; lia | vm_compute; reflexivity].
  - simpl. lia.
Defined.

(** ** coalesce_everywhere on a coalesced list *)

Lemma has_adjacent_free_tail (n : node) (l : list node) :
  has_adjacent_free (n :: l) = false -> has_adjacent_free l = false.
Proof.
  destruct l as [| n2 l]; [reflexivity |].
  cbn [has_adjacent_free]. intros H. apply orb_false_elim in H. tauto.
Qed.

Lemma has_adjacent_free_head (n : node) (l : list node) :
  has_adjacent_free (n :: l) = false -> nstatus n = STATUS_FREE ->
  head_not_free l.
Proof.
  destruct l as [| n2 l]; [intros; exact I |].
  cbn [has_adjacent_free head_not_free]. intros H Hn.
  apply orb_false_elim in H. destruct H as [H _].
  apply status_eqb_eq in Hn. rewrite Hn in H. cbn [andb] in H.
  apply status_eqb_neq. exact H.
Qed.

Lemma coalesce_everywhere_loop_fixed (fuel : nat) :
  forall (inner : nat) (s : state) (cur : Z) (l : list node),
    lseg (heap s) cur l -> has_adjacent_free l = false ->
    (length l < fuel)%nat -> (0 < inner)%nat ->
    coalesce_everywhere_loop fuel inner cur s = Ret tt s.
Proof.
  induction fuel as [| fuel IH]; intros inner s cur l Hl Hadj Hfuel Hinner.
  - lia.
  - destruct Hl as [| a b l2 Ha Hb Hl2].
    + reflexivity.
    + simpl in Hfuel. cbn [coalesce_everywhere_loop].
      destruct (Z.eqb_spec a NULL); [contradiction |].
      step_load.
      pose proof (has_adjacent_free_tail _ _ Hadj) as Hadj2.
      destruct (status_eqb (status b) STATUS_FREE) eqn:Est.
      * apply status_eqb_eq in Est.
        pose proof (has_adjacent_free_head _ _ Hadj Est) as Hhead.
        assert (Hno : coalesce_blocks inner a s = Ret tt s).
        { unfold coalesce_blocks.
          destruct (Z.eqb_spec a NULL); [contradiction |].
          step_load. rewrite Est. cbn [status_eqb negb].
          destruct inner as [| inner]; [lia |].
          cbn [coalesce_loop]. step_load.
          destruct Hl2 as [| a2 b2 l3 Ha2 Hb2 Hl3].
          - reflexivity.
          - destruct (Z.eqb_spec a2 NULL); [contradiction |].
            step_load.
            cbn [head_not_free node_of nstatus] in Hhead.
            apply status_eqb_neq in Hhead. rewrite Hhead. reflexivity. }
        rewrite ?bind_assoc. rewrite (bind_Ret _ _ _ _ _ Hno).
        step_load. apply (IH inner s (next b) l2 Hl2 Hadj2); lia.
      * step_ret. step_load. apply (IH inner s (next b) l2 Hl2 Hadj2); lia.
Qed.

(** X11: on a block list without two adjacent free blocks
    [coalesce_everywhere] changes nothing. *)
Theorem coalesce_everywhere_fixed (fuel : nat) (s : state) (l : list node) :
  block_list s l -> has_adjacent_free l = false -> (length l < fuel)%nat ->
  coalesce_everywhere fuel s = Ret tt s.
Proof.
  intros Hl Hadj Hfuel. unfold coalesce_everywhere. step_get.
  apply (coalesce_everywhere_loop_fixed fuel fuel s (global_base s) l Hl Hadj Hfuel).
  lia.
Qed.

Lemma coalesce_everywhere_fixed_witness :
  coalesce_everywhere 8 two_alloc = Ret tt two_alloc.
Proof.
  apply (coalesce_everywhere_fixed 8 two_alloc two_alloc_list).
  - exact (proj1 two_alloc_arena_ok).
  - reflexivity.
  - simpl. lia.
Defined.

(** X12: [coalesce_everywhere] is idempotent: run on the state it has
    produced, it changes nothing. *)
Theorem coalesce_everywhere_idempotent (fuel : nat) (s : state) (l : list node) :
  block_list s l -> sizes_fit l -> (length l < fuel)%nat ->
  exists s',
    coalesce_everywhere fuel s = Ret tt s' /\
    coalesce_everywhere fuel s' = Ret tt s'.
Proof.
  intros Hl Hfit Hfuel.
  destruct (coalesce_everywhere_loop_spec fuel fuel s (global_base s) l
              Hl Hfuel Hfuel Hfit)
    as (s' & l' & Hrun & Hohl & Hl' & Hadj & _ & _ & Hlen & _).
  destruct Hohl as (_ & Hgb & _).
  exists s'. split.
  - unfold coalesce_everywhere. step_get. exact Hrun.
  - unfold coalesce_everywhere. step_get. rewrite Hgb.
    apply (coalesce_everywhere_loop_fixed fuel fuel s' (global_base s) l' Hl' Hadj);
      lia.
Qed.

Lemma coalesce_everywhere_idempotent_witness :
  exists s',
    coalesce_everywhere 8 three_free = Ret tt s' /\
    coalesce_everywhere 8 s' = Ret tt s'.
Proof.
  apply (coalesce_everywhere_idempotent 8 three_free three_free_list).
  - exact three_free_block_list.
  - exact three_free_sizes_fit.
  - simpl. lia.
Defined.

(** ** os_malloc on the arena *)

(** The arena after two allocations of 8 bytes has the layout [tiled]. *)
Lemma two_alloc_tiled : tiled two_alloc two_alloc_list.
Proof.
  unfold tiled. split; [| split].
  - vm_compute. repeat split; discriminate.
  - right. vm_compute. left. reflexivity.
  - assert (H : map_Forall (fun _ b => status_eqb (status b) STATUS_MAPPED = false)
                           (heap two_alloc)).
    { apply (bool_decide_unpack
               (map_Forall (fun _ b => status_eqb (status b) STATUS_MAPPED = false)
                           (heap two_alloc))).
      vm_compute. exact I. }
    intros a b Hb Hst. specialize (H a b Hb). cbv beta in H.
    rewrite Hst in H. cbn [status_eqb] in H. discriminate H.
Defined.

(** X13: in a well-formed arena whose blocks do not overlap, a small
    request returns the address after the header of an allocated block
    that holds the requested bytes; the blocks that were in use keep
    their headers and their payload bytes. The process is terminated
    only when the break cannot move. The layout [tiled] is the one in
    which every header that the request writes lies in a free block or
    in memory just obtained from [sbrk], so that the payload bytes of
    the embedding are those of the C program. *)
Theorem os_malloc_small_returns_block
        (fuel : nat) (s : state) (l : list node) (sz : Z) :
  arena_ok s l -> tiled s l -> (length l < fuel)%nat -> small_request sz ->
  outcome (os_malloc fuel sz s)
    (fun p s' =>
       META_SIZE < p /\
       (exists b, heap s' !! (p - META_SIZE) = Some b /\
                  status b = STATUS_ALLOC /\ sz + META_SIZE <= size b) /\
       (forall n, In n l -> nstatus n = STATUS_ALLOC ->
                  is_Some (heap s' !! addr n) /\
                  forall x, payload n x -> mem s' x = mem s x))
    (brk_limit s < brk s + MMAP_THRESHOLD).
Proof.
  intros Hok _ Hfuel Hsmall.
  pose proof (block_size_small sz Hsmall) as [Hbs _].
  pose proof Hok as (Hl & _).
  eapply outcome_weaken;
    [apply (os_malloc_small_spec fuel s l sz Hok Hfuel Hsmall) | | tauto].
  intros p s' [[Hmem Hext] (Hp & b & Hb & Hst & Hle & _)]. cbv beta.
  split; [lia |]. split.
  - exists b. split; [assumption |]. split; [assumption | lia].
  - intros n Hn _. split; [| intros x _; rewrite Hmem; reflexivity].
    destruct (lseg_lookup _ _ (addr n) _ Hl (in_map addr l n Hn)) as (_ & b0 & Hb0).
    destruct (Hext _ _ Hb0) as (b' & Hb' & _). eauto.
Qed.

Lemma os_malloc_small_returns_block_witness :
  outcome (os_malloc 8 100 two_alloc)
    (fun p s' =>
       META_SIZE < p /\
       (exists b, heap s' !! (p - META_SIZE) = Some b /\
                  status b = STATUS_ALLOC /\ 100 + META_SIZE <= size b) /\
       (forall n, In n two_alloc_list -> nstatus n = STATUS_ALLOC ->
                  is_Some (heap s' !! addr n) /\
                  forall x, payload n x -> mem s' x = mem two_alloc x))
    (brk_limit two_alloc < brk two_alloc + MMAP_THRESHOLD).
Proof.
  apply (os_malloc_small_returns_block 8 two_alloc two_alloc_list 100).
  - exact two_alloc_arena_ok.
  - exact two_alloc_tiled.
  - simpl. lia.
  - unfold small_request. vm_compute. split; [reflexivity | discriminate].
Defined.

(** ** The ALIGN macro and the block size *)

(** X14: for a size that does not wrap around, [ALIGN] rounds up to the
    next multiple of 8, and leaves a multiple of 8 as it is. *)
Theorem ALIGN_rounds_up (x : Z) :
  0 <= x -> x + 7 < 2 ^ 64 ->
  x <= ALIGN x < x + 8 /\ ALIGN x mod 8 = 0 /\ ALIGN (ALIGN x) = ALIGN x.
Proof.
  intros H0 H1.
  pose proof (ALIGN_bounds x H0 H1) as [Hb Hm].
  split; [assumption |]. split; [assumption |].
  pose proof (Z.div_mod (ALIGN x) 8 ltac:(lia)) as Hd. rewrite Hm in Hd.
  apply ALIGN_aligned; [lia | lia | assumption].
Qed.

Lemma ALIGN_rounds_up_witness :
  33 <= ALIGN 33 < 33 + 8 /\ ALIGN 33 mod 8 = 0 /\ ALIGN (ALIGN 33) = ALIGN 33.
Proof.
  apply (ALIGN_rounds_up 33).
  - lia.
  - reflexivity.
Defined.

Lemma wrap_over (z : Z) : 2 ^ 64 <= z < 2 ^ 65 -> wrap z = z - 2 ^ 64.
Proof.
  intros H. unfold wrap, SIZE_T_BITS. symmetry.
  apply (Z.mod_unique z (2 ^ 64) 1); lia.
Qed.

(** X15: the block size of a request within 39 bytes of [2^64] wraps
    around to at most the size of a header: no test rejects such a
    request, and its block size is below the mapping threshold. *)
Theorem block_size_wraps_around (sz : Z) :
  2 ^ 64 - 39 <= sz < 2 ^ 64 ->
  0 <= block_size sz <= META_SIZE /\ block_size sz < MMAP_THRESHOLD.
Proof.
  intros H. unfold block_size, ALIGN, ALIGNMENT, META_SIZE, MMAP_THRESHOLD.
  change (8 - 1) with 7. rewrite land_lnot_7.
  assert (Hw : 0 <= wrap (wrap (sz + 32) + 7) <= 38).
  { destruct (Z.lt_ge_cases (sz + 32) (2 ^ 64)) as [Hlt | Hge].
    - rewrite (wrap_small (sz + 32)) by lia.
      rewrite wrap_over by lia. lia.
    - rewrite (wrap_over (sz + 32)) by lia.
      rewrite wrap_small by lia. lia. }
  pose proof (Z.div_mod (wrap (wrap (sz + 32) + 7)) 8 ltac:(lia)) as Hd.
  pose proof (Z.mod_pos_bound (wrap (wrap (sz + 32) + 7)) 8 ltac:(lia)) as Hm.
  lia.
Qed.

Lemma block_size_wraps_around_witness :
  0 <= block_size (2 ^ 64 - 1) <= META_SIZE /\
  block_size (2 ^ 64 - 1) < MMAP_THRESHOLD.
Proof.
  apply (block_size_wraps_around (2 ^ 64 - 1)).
  lia.
Defined.

(** ** Reuse of a released block *)

(** One turn of each loop. *)
Lemma coalesce_loop_S (fuel : nat) (block : Z) :
  coalesce_loop (S fuel) block =
  (let* n := load next block in
   if n =? NULL then ret tt
   else
     let* nstatus := load status n in
     if status_eqb nstatus STATUS_FREE then
       let* bsize := load size block in
       let* nsize := load size n in
       store_size block (wrap (bsize + nsize)) ;;;
       let* n1 := load next block in
       let* nn := load next n1 in
       store_next block nn ;;;
       let* n2 := load next block in
       (if n2 =? NULL then modify (set_last block)
        else store_prev n2 block) ;;;
       coalesce_loop fuel block
     else ret tt).
Proof. reflexivity. Qed.

Lemma coalesce_everywhere_loop_S (fuel inner : nat) (current : Z) :
  coalesce_everywhere_loop (S fuel) inner current =
  (if current =? NULL then ret tt
   else
     let* st := load status current in
     (if status_eqb st STATUS_FREE then coalesce_blocks inner current
      else ret tt) ;;;
     let* n := load next current in
     coalesce_everywhere_loop fuel inner n).
Proof. reflexivity. Qed.

Lemma find_best_fit_loop_S (fuel : nat) (sz current best_fit best_fit_size : Z) :
  find_best_fit_loop (S fuel) sz current best_fit best_fit_size =
  (if current =? NULL then ret (best_fit, best_fit_size)
   else
     let* st := load status current in
     let* csize := load size current in
     let* n := load next current in
     if status_eqb st STATUS_FREE && (sz <=? csize) && (csize <? best_fit_size)
     then find_best_fit_loop fuel sz n current csize
     else find_best_fit_loop fuel sz n best_fit best_fit_size).
Proof. reflexivity. Qed.

(** Equality of two header maps built by writes to two addresses. *)
Ltac heap_eq :=
  apply map_eq; intros ?x;
  repeat (rewrite lookup_insert; case_decide);
  subst; try reflexivity; try addr_lia.

Lemma state_ext (s1 s2 : state) :
  heap s1 = heap s2 -> mem s1 = mem s2 ->
  global_base s1 = global_base s2 -> last s1 = last s2 ->
  prealloc s1 = prealloc s2 -> brk s1 = brk s2 ->
  brk_limit s1 = brk_limit s2 -> mmap_pool s1 = mmap_pool s2 ->
  page_size s1 = page_size s2 -> s1 = s2.
Proof.
  destruct s1, s2. cbn. intros. subst. reflexivity.
Qed.

Ltac state_eq :=
  f_equal; apply state_ext; unfold first_arena; sstate;
  [ heap_eq | try reflexivity; try lia .. ].

(** X16: in a process that has not used the allocator, a small Allocate
    creates the arena; the Release of its result only marks the first
    block free; a second Allocate of the same size merges the two free
    blocks, splits them as before and returns the same address, without
    moving the break: the headers are those that the first Allocate
    left, and [last] now refers to the free remainder. *)
Theorem malloc_free_malloc_reuses_block (fuel : nat) (s : state) (sz : Z) :
  heap s = ∅ -> prealloc s = false -> last s = NULL ->
  0 < brk s -> brk s + MMAP_THRESHOLD <= brk_limit s ->
  0 < sz -> sz + META_SIZE + 8 + (META_SIZE + ALIGNMENT) <= MMAP_THRESHOLD ->
  (2 < fuel)%nat ->
  let p := brk s + META_SIZE in
  os_malloc fuel sz s = Ret p (first_arena s sz STATUS_ALLOC (brk s)) /\
  os_free p (first_arena s sz STATUS_ALLOC (brk s)) =
    Ret tt (first_arena s sz STATUS_FREE (brk s)) /\
  os_malloc fuel sz (first_arena s sz STATUS_FREE (brk s)) =
    Ret p (first_arena s sz STATUS_ALLOC (brk s + block_size sz)).
Proof.
  intros Hh Hpre Hlast Hbrk Hlimit Hsz Hroom Hfuel p. subst p.
  assert (Hsmall : small_request sz).
  { unfold small_request. addr_lia. }
  pose proof (block_size_small sz Hsmall) as [Hbs1 Hbs2].
  assert (Hrem : wrap (MMAP_THRESHOLD - block_size sz) = MMAP_THRESHOLD - block_size sz).
  { apply wrap_small. addr_lia. }
  destruct fuel as [| [| [| fuel]]]; [lia | lia | lia |].
  split; [| split].
  - (* the first Allocate *)
    unfold os_malloc.
    change (ALIGN (wrap (sz + META_SIZE))) with (block_size sz).
    destruct (Z.leb_spec sz 0); [lia |].
    destruct (Z.leb_spec MMAP_THRESHOLD (block_size sz)); [lia |].
    rewrite bind_get, Hpre. cbn [negb].
    unfold brk_block.
    change (MMAP_THRESHOLD <=? 0) with false. cbv iota.
    rewrite ?bind_assoc.
    rewrite (bind_Ret _ _ _ _ _ (sbrk_zero s)).
    rewrite ?bind_assoc.
    change (to_intptr MMAP_THRESHOLD) with MMAP_THRESHOLD.
    rewrite (bind_Ret _ _ _ _ _ (sbrk_ok MMAP_THRESHOLD s ltac:(discriminate) Hlimit)).
    rewrite Z.eqb_refl. cbn [negb].
    rewrite ?bind_assoc, bind_DIE_false.
    destruct (Z.eqb_spec (brk s) MAP_FAILED) as [E | _]; [addr_lia |].
    step_store. step_store.
    step_get. rewrite Hlast.
    change (NULL =? NULL) with true. cbv iota.
    step_store. step_store.
    step_modify. step_ret.
    step_load.
    destruct (Z.ltb_spec (block_size sz) MMAP_THRESHOLD); [| lia].
    unfold split_block.
    destruct (Z.eqb_spec (brk s) NULL) as [E | _]; [addr_lia |].
    step_load. rewrite Hrem.
    destruct (Z.ltb_spec (MMAP_THRESHOLD - block_size sz) (META_SIZE + ALIGNMENT));
      [addr_lia |].
    step_store. step_store. step_store.
    step_load.
    step_store. step_store. step_store.
    step_load.
    change (NULL =? NULL) with true. cbv iota.
    step_ret. step_get.
    rewrite Z.eqb_refl.
    step_modify. step_modify. step_modify. step_modify.
    rewrite Hh, !lookup_empty. cbn [default].
    unfold ret. state_eq.
  - (* the Release *)
    unfold os_free.
    destruct (Z.eqb_spec (brk s + META_SIZE) NULL); [addr_lia |].
    rewrite Z.add_simpl_r.
    unfold first_arena at 1.
    step_load.
    cbn [status status_eqb].
    unfold store_status. rewrite store_Ret by addr_lia.
    state_eq.
  - (* the second Allocate *)
    assert (HA : (brk s =? NULL) = false) by (apply Z.eqb_neq; addr_lia).
    assert (HR : (brk s + block_size sz =? NULL) = false)
      by (apply Z.eqb_neq; addr_lia).
    assert (Hw : wrap (block_size sz + (MMAP_THRESHOLD - block_size sz)) =
                 MMAP_THRESHOLD).
    { replace (block_size sz + (MMAP_THRESHOLD - block_size sz))
        with MMAP_THRESHOLD by lia.
      reflexivity. }
    unfold os_malloc.
    change (ALIGN (wrap (sz + META_SIZE))) with (block_size sz).
    destruct (Z.leb_spec sz 0); [lia |].
    destruct (Z.leb_spec MMAP_THRESHOLD (block_size sz)); [lia |].
    unfold first_arena at 1.
    rewrite bind_get. cbn [prealloc negb].
    (* coalesce_everywhere: the first block absorbs the remainder *)
    unfold coalesce_everywhere.
    step_get.
    rewrite coalesce_everywhere_loop_S, HA.
    step_load. cbn [status_eqb].
    unfold coalesce_blocks. rewrite HA.
    step_load. cbn [status_eqb negb].
    rewrite coalesce_loop_S.
    step_load. rewrite HR.
    step_load. cbn [status_eqb].
    step_load. step_load. rewrite Hw.
    step_store.
    step_load. step_load.
    step_store.
    step_load.
    change (NULL =? NULL) with true. cbv iota.
    step_modify.
    rewrite coalesce_loop_S.
    step_load.
    change (NULL =? NULL) with true. cbv iota.
    step_ret.
    step_load.
    rewrite coalesce_everywhere_loop_S.
    change (NULL =? NULL) with true. cbv iota.
    step_ret.
    (* find_best_fit: the merged block is the only candidate *)
    unfold find_best_fit.
    step_get.
    rewrite find_best_fit_loop_S, HA.
    step_load. step_load. step_load.
    cbn [status_eqb andb].
    destruct (Z.leb_spec (block_size sz) MMAP_THRESHOLD); [| lia].
    change (MMAP_THRESHOLD <? SIZE_MAX) with true. cbn [andb].
    rewrite find_best_fit_loop_S.
    change (NULL =? NULL) with true. cbv iota.
    step_ret. cbn [fst snd].
    step_get.
    step_load. step_load.
    cbn [status_eqb andb].
    destruct (Z.ltb_spec MMAP_THRESHOLD (block_size sz)); [lia |].
    cbn [andb].
    step_ret.
    rewrite HA. cbn [negb].
    step_load.
    destruct (Z.ltb_spec (block_size sz) MMAP_THRESHOLD); [| lia].
    (* split_block: the remainder is cut off again *)
    unfold split_block. rewrite HA.
    step_load. rewrite Hrem.
    destruct (Z.ltb_spec (MMAP_THRESHOLD - block_size sz) (META_SIZE + ALIGNMENT));
      [addr_lia |].
    step_store. step_store. step_store.
    step_load.
    step_store. step_store. step_store.
    step_load.
    change (NULL =? NULL) with true. cbv iota.
    step_ret. step_get.
    rewrite Z.eqb_refl.
    step_modify.
    step_store.
    unfold ret. state_eq.
Qed.

Lemma malloc_free_malloc_reuses_block_witness :
  let p := brk fresh + META_SIZE in
  os_malloc 8 100 fresh = Ret p (first_arena fresh 100 STATUS_ALLOC (brk fresh)) /\
  os_free p (first_arena fresh 100 STATUS_ALLOC (brk fresh)) =
    Ret tt (first_arena fresh 100 STATUS_FREE (brk fresh)) /\
  os_malloc 8 100 (first_arena fresh 100 STATUS_FREE (brk fresh)) =
    Ret p (first_arena fresh 100 STATUS_ALLOC (brk fresh + block_size 100)).
Proof.
  apply (malloc_free_malloc_reuses_block 8 fresh 100);
    try reflexivity; try lia; vm_compute; first [reflexivity | discriminate].
Defined.

(** ** Extension of the last block, and failures *)

(** X17: Resize of the block that [last] refers to, to a size on the
    small path that the block does not hold, moves the break by the
    shortfall when the break can move, records the new block size in the
    header and returns the same address; no other header, no global and
    no payload byte changes. *)
Theorem os_realloc_extends_last
        (fuel : nat) (s : state) (ptr sz : Z) (b : block_meta) :
  small_request sz -> ptr <> NULL -> ptr - META_SIZE <> NULL ->
  heap s !! (ptr - META_SIZE) = Some b -> status b = STATUS_ALLOC ->
  0 <= size b < block_size sz ->
  last s = ptr - META_SIZE ->
  brk s <> NULL ->
  brk s + (block_size sz - size b) <= brk_limit s ->
  os_realloc fuel ptr sz s =
  Ret ptr (set_heap (<[ptr - META_SIZE := with_size (block_size sz) b]> (heap s))
                    (set_brk (brk s + (block_size sz - size b)) s)).
Proof.
  intros Hsmall Hptr Hblock Hb Hst Hsize Hlast Hbrk Hlimit.
  pose proof (block_size_small sz Hsmall) as [Hbs1 Hbs2].
  destruct Hsmall as [Hsz _].
  unfold os_realloc.
  change (ALIGN (wrap (sz + META_SIZE))) with (block_size sz).
  destruct (Z.leb_spec sz 0); [lia |].
  destruct (Z.eqb_spec ptr NULL); [contradiction |].
  destruct (Z.eqb_spec (ptr - META_SIZE) NULL); [contradiction |].
  rewrite (bind_load _ _ _ _ b) by assumption.
  rewrite Hst.
  destruct (Z.leb_spec MMAP_THRESHOLD (block_size sz)); [lia |].
  cbn [status_eqb orb].
  rewrite bind_ret.
  unfold os_realloc_tail.
  rewrite (bind_load _ _ _ _ b) by assumption.
  destruct (Z.leb_spec (block_size sz) (size b)); [lia |].
  rewrite bind_get, Hlast.
  rewrite Z.eqb_refl.
  rewrite (bind_load _ _ _ _ b) by assumption.
  assert (Hmiss : to_int (wrap (block_size sz - size b)) = block_size sz - size b).
  { unfold MMAP_THRESHOLD in *.
    rewrite wrap_small by lia. apply to_int_small. lia. }
  rewrite Hmiss.
  rewrite (bind_Ret _ _ _ _ _ (sbrk_ok (block_size sz - size b) s ltac:(lia) Hlimit)).
  destruct (Z.eqb_spec (brk s) NULL); [contradiction |].
  rewrite bind_DIE_false.
  unfold store_size. rewrite bind_store by assumption.
  sstate. rewrite Hb. reflexivity.
Qed.

Lemma os_realloc_extends_last_witness :
  os_realloc 8 1000032 200 one_alloc =
  Ret 1000032
      (set_heap (<[1000032 - META_SIZE :=
                   with_size (block_size 200)
                     {| size := 136; status := STATUS_ALLOC;
                        prev := NULL; next := 1000136 |}]> (heap one_alloc))
                (set_brk (brk one_alloc + (block_size 200 - 136)) one_alloc)).
Proof.
  apply (os_realloc_extends_last 8 one_alloc 1000032 200
           {| size := 136; status := STATUS_ALLOC; prev := NULL; next := 1000136 |}).
  - unfold small_request. vm_compute. split; [reflexivity | discriminate].
  - discriminate.
  - discriminate.
  - vm_compute. reflexivity.
  - reflexivity.
  - vm_compute. split; [discriminate | reflexivity].
  - vm_compute. reflexivity.
  - vm_compute. discriminate.
  - vm_compute. discriminate.
Defined.

(** X18: ZeroAllocate does not detect that the product of its arguments
    wraps around. When the product is 0 in [size_t] and a page is larger
    than a header, the block size is that of a header alone, the request
    of 0 bytes is passed to [os_malloc], which returns [NULL], and the
    result is [NULL + 1] in units of headers, the address [META_SIZE]; the
    state is unchanged. *)
Theorem os_calloc_wrapped_product_returns_header_size
        (fuel : nat) (s : state) (nmemb sz : Z) :
  0 < sz -> 0 < nmemb -> wrap (sz * nmemb) = 0 ->
  META_SIZE < page_size s ->
  os_calloc fuel nmemb sz s = Ret META_SIZE s.
Proof.
  intros Hsz Hn Hwrap Hpage.
  unfold os_calloc.
  destruct (Z.leb_spec sz 0); [lia |].
  destruct (Z.leb_spec nmemb 0); [lia |].
  cbn [orb].
  rewrite Hwrap.
  change (ALIGN (wrap (0 + META_SIZE))) with META_SIZE.
  rewrite bind_get.
  destruct (Z.leb_spec (page_size s) META_SIZE); [lia |].
  change (wrap (META_SIZE - META_SIZE)) with 0.
  unfold os_malloc.
  change (0 <=? 0) with true. cbv iota.
  rewrite bind_ret.
  change (NULL =? NULL) with true. cbn [negb].
  reflexivity.
Qed.

Lemma os_calloc_wrapped_product_returns_header_size_witness :
  os_calloc 8 (2 ^ 40) (2 ^ 24) fresh = Ret META_SIZE fresh.
Proof.
  apply (os_calloc_wrapped_product_returns_header_size 8 fresh (2 ^ 40) (2 ^ 24)).
  - reflexivity.
  - reflexivity.
  - vm_compute. reflexivity.
  - vm_compute. reflexivity.
Defined.

(** X19: a request whose block size reaches the mapping threshold
    terminates the process with the message of the mapping when [mmap]
    has no region to give, whatever the arena holds and however far the
    break could move. *)
Theorem os_malloc_dies_when_mmap_fails (fuel : nat) (s : state) (sz : Z) :
  0 < sz -> MMAP_THRESHOLD <= block_size sz -> mmap_fails s ->
  os_malloc fuel sz s = Die "mmap failed".
Proof.
  intros Hsz Hlarge Hfail.
  unfold os_malloc.
  change (ALIGN (wrap (sz + META_SIZE))) with (block_size sz).
  destruct (Z.leb_spec sz 0); [lia |].
  destruct (Z.leb_spec MMAP_THRESHOLD (block_size sz)); [| lia].
  assert (Hm : exists s1, mmap (block_size sz) s = Ret MAP_FAILED s1).
  { unfold mmap_fails in Hfail. unfold mmap.
    destruct (mmap_pool s) as [| a pool]; [eexists; reflexivity |].
    subst a. change (MAP_FAILED =? MAP_FAILED) with true.
    eexists; reflexivity. }
  destruct Hm as [s1 Hm].
  rewrite (bind_Ret _ _ _ _ _ Hm).
  change (MAP_FAILED =? MAP_FAILED) with true.
  apply bind_DIE_true.
Qed.

Lemma os_malloc_dies_when_mmap_fails_witness :
  os_malloc 8 200000 no_mapping = Die "mmap failed".
Proof.
  apply (os_malloc_dies_when_mmap_fails 8 no_mapping 200000).
  - reflexivity.
  - vm_compute. discriminate.
  - exact I.
Defined.
